(** * Render pipeline: stages, targets, probes

    A shallow embedding of the stage layer of the render pipeline:
    [RenderStage] (rpcore/render_stage.cpp), [UpdatePreviousPipesStage]
    (rpcore/stages/update_previous_pipes_stage.cpp), the environment probe
    plugin (rpplugins/env_probes) and its [ProbeManager].

    Objects that the C++ code reaches through pointers (textures, probes)
    live in stores indexed by an address, so that two pointers to one
    object stay aliases in the model.  Calls into the host engine which
    have no state of their own here are recorded in a trace. *)

From Stdlib Require Import ZArith Ascii String Permutation Sorted.
From Stdlib Require Import Relation_Operators.
From stdpp Require Import gmap strings list fin_maps functions pretty.

Local Open Scope Z_scope.
Local Open Scope string_scope.
Local Open Scope list_scope.

(** ** Strings and file names of the host engine *)

Module Panda.

Definition Filename := string.

(** The line feed written [\n] in the C++ literals. *)
Definition nl : string := String "010"%char EmptyString.

(** [std::string::find(needle) != std::string::npos]. *)
Fixpoint contains (needle hay : string) : bool :=
  String.prefix needle hay ||
  match hay with
  | EmptyString => false
  | String _ rest => contains needle rest
  end.

Fixpoint last_char (s : string) : option ascii :=
  match s with
  | EmptyString => None
  | String c EmptyString => Some c
  | String _ rest => last_char rest
  end.

(** [Filename::operator /], that is [Filename(dirname, basename)]: an empty
    directory gives the base name, otherwise the two parts are joined by
    exactly one slash. *)
Definition join (dirname basename : Filename) : Filename :=
  match last_char dirname with
  | None => basename
  | Some c => if decide (c = "/"%char) then dirname +:+ basename
              else dirname +:+ "/" +:+ basename
  end.

(** [Filename::to_os_generic] on a POSIX host. *)
Definition to_os_generic (f : Filename) : string := f.

(** [Texture::TextureType]. *)
Inductive TextureType :=
| TT_1d_texture
| TT_2d_texture
| TT_3d_texture
| TT_2d_texture_array
| TT_cube_map
| TT_buffer_texture
| TT_cube_map_array
| TT_1d_texture_array.

#[export] Instance TextureType_eq_dec : EqDecision TextureType.
Proof. solve_decision. Defined.

(** The part of a [Texture] object the stages read or write. *)
Record Texture := mkTexture {
  tex_name : string;
  texture_type : TextureType;
  x_size : Z;
  y_size : Z;
  z_size : Z
}.

Definition set_x_size (v : Z) (t : Texture) : Texture :=
  mkTexture (tex_name t) (texture_type t) v (y_size t) (z_size t).
Definition set_y_size (v : Z) (t : Texture) : Texture :=
  mkTexture (tex_name t) (texture_type t) (x_size t) v (z_size t).
Definition set_z_size (v : Z) (t : Texture) : Texture :=
  mkTexture (tex_name t) (texture_type t) (x_size t) (y_size t) v.

(** A [PT(Texture)] is an address into the texture store. *)
Definition TexPtr := nat.

(** A loaded [Shader] is identified by the files it was loaded from
    ([RPLoader::load_shader(path_args)]). *)
Record Shader := mkShader { shader_paths : list Filename }.

End Panda.

Export Panda.

(** ** The world outside a stage *)

(** A [RenderTarget*] as a stage sees it: the address of the target the
    stage holds under a key of [targets_], which is what [create_target]
    returns, or the address of a target held elsewhere, whatever the name
    of that target. *)
Inductive TargetRef :=
| OwnTarget (key : string)
| ForeignTarget (name : string).

(** Calls whose effect lies outside the modelled state, in the order in
    which they are issued. *)
Inductive Call :=
| CallError (msg : string)
| CallDebug (msg : string)
| CallTargetSetActive (target : string) (state : bool)
| CallTargetConsiderResize (target : string)
| CallTargetPrepareBuffer (target : string)
| CallTargetSetShaderInput (target : string) (input : string) (tex : TexPtr)
| CallTargetSetShader (target : string) (shader : Shader)
| CallTargetRemove (target : TargetRef).

Record World := mkWorld {
  trace : list Call;
  textures : TexPtr -> Texture;
  resolution : Z * Z;                  (* Globals::resolution *)
  defines : gmap string string;        (* StageManager::get_defines() *)
  files : gmap string string;          (* the virtual file system *)
  write_failure : Filename -> option string
    (* the message of the exception of open_write_file, if it throws *)
}.

Definition emit (c : Call) (w : World) : World :=
  mkWorld (trace w ++ [c]) (textures w) (resolution w) (defines w) (files w)
    (write_failure w).

Definition emit_all (cs : list Call) (w : World) : World :=
  mkWorld (trace w ++ cs) (textures w) (resolution w) (defines w) (files w)
    (write_failure w).

Definition set_textures (h : TexPtr -> Texture) (w : World) : World :=
  mkWorld (trace w) h (resolution w) (defines w) (files w) (write_failure w).

Definition set_files (f : gmap string string) (w : World) : World :=
  mkWorld (trace w) (textures w) (resolution w) (defines w) f (write_failure w).

(** ** RenderStage *)

(** A [RenderTarget] object; the stage only hands it its name and calls
    its methods, which are recorded in the trace. *)
Record RenderTarget := mkTarget { rt_name : string }.

(** The members of [RenderStage], with the members [D] of the derived
    class. *)
Record RenderStage (D : Type) := mkStage {
  stage_id_ : string;
  active_ : bool;
  targets_ : gmap string RenderTarget;
  derived : D
}.

Arguments mkStage {D} _ _ _ _.
Arguments stage_id_ {D} _.
Arguments active_ {D} _.
Arguments targets_ {D} _.
Arguments derived {D} _.

(** The virtual methods a derived stage supplies. *)
Class StageVirtuals (D : Type) := {
  get_plugin_id : RenderStage D -> string;
  set_dimensions : RenderStage D -> World -> RenderStage D * World
}.

(** What a throwing method throws. *)
Inductive Exception :=
| RuntimeError (what : string)
| OutOfRange (what : string).

Module Stage.
Section Methods.
Context {D : Type} `{StageVirtuals D}.

Definition with_active (b : bool) (s : RenderStage D) : RenderStage D :=
  mkStage (stage_id_ s) b (targets_ s) (derived s).

Definition with_targets (t : gmap string RenderTarget) (s : RenderStage D)
  : RenderStage D :=
  mkStage (stage_id_ s) (active_ s) t (derived s).

Definition with_derived (d : D) (s : RenderStage D) : RenderStage D :=
  mkStage (stage_id_ s) (active_ s) (targets_ s) d.

(** The names of the owned targets, each once; [for (target: targets_)]
    visits them in the order of the container. *)
Definition target_names (s : RenderStage D) : list string :=
  (map_to_list (targets_ s)).*1.

(** [RenderStage::set_active]. *)
Definition set_active (state : bool) (s : RenderStage D) (w : World)
  : RenderStage D * World :=
  if negb (eqb (active_ s) state) then
    let s' := with_active state s in
    (s', emit_all ((fun n => CallTargetSetActive n (active_ s'))
                     <$> target_names s') w)
  else (s, w).

(** [RenderStage::set_shader_input], for a texture input. *)
Definition set_shader_input (input : string) (tex : TexPtr)
    (s : RenderStage D) (w : World) : RenderStage D * World :=
  (s, emit_all ((fun n => CallTargetSetShaderInput n input tex)
                  <$> target_names s) w).

(** [RenderStage::remove_target].  [target->remove()] comes first; the
    loop then erases the entry whose pointer is [target], and only a
    target the stage holds has such an entry.  The pointer to a target
    the stage has erased is dangling, and a call with it has no defined
    behaviour: [None]. *)
Definition remove_target (target : TargetRef) (s : RenderStage D) (w : World)
  : option (RenderStage D * World) :=
  match target with
  | OwnTarget key =>
      match targets_ s !! key with
      | Some _ =>
          Some (with_targets (delete key (targets_ s)) s,
                emit (CallTargetRemove target) w)
      | None => None
      end
  | ForeignTarget _ => Some (s, emit (CallTargetRemove target) w)
  end.

(** [fmt::format("{}:{}:{}", get_plugin_id(), stage_id_, name)]. *)
Definition target_name (s : RenderStage D) (name : string) : string :=
  get_plugin_id s +:+ ":" +:+ stage_id_ s +:+ ":" +:+ name.

(** [RenderStage::create_target]; the returned pointer is the key of the
    new entry, [None] is [nullptr]. *)
Definition create_target (name : string) (s : RenderStage D) (w : World)
  : option string * RenderStage D * World :=
  let tn := target_name s name in
  match targets_ s !! tn with
  | Some _ => (None, s, emit (CallError ("Overriding existing target: " +:+ tn)) w)
  | None => (Some tn, with_targets (<[tn := mkTarget tn]> (targets_ s)) s, w)
  end.

(** [RenderStage::handle_window_resize]. *)
Definition handle_window_resize (s : RenderStage D) (w : World)
  : RenderStage D * World :=
  let '(s1, w1) := set_dimensions s w in
  (s1, emit_all (CallTargetConsiderResize <$> target_names s1) w1).

Definition prefix_table : list string :=
  ["/$$rpconfig"; "/$$rp/shader"; "/$$rptemp"].

(** The loop of [get_shader_handle] over [args]. *)
Definition resolve_path (base_path source : Filename) : Filename :=
  if existsb (fun p => contains p (to_os_generic source)) prefix_table
  then source
  else join base_path source.

(** [RenderStage::get_shader_handle]; [defs] is
    [pipeline_.get_stage_mgr()->get_defines()]. *)
Definition get_shader_handle (defs : gmap string string)
    (base_path : Filename) (args : list Filename)
    (stereo_post use_post_gs : bool) : Exception + Shader :=
  if (length args <=? 0)%nat || (3 <? length args)%nat then
    inl (RuntimeError "args.size() <= 0 || args.size() > 3")
  else
    let path_args := map (resolve_path base_path) args in
    if (length args =? 1)%nat then
      if stereo_post then
        let path_args :=
          "/$$rp/shader/default_post_process_stereo.vert.glsl" :: path_args in
        match defs !! "NVIDIA_STEREO_VIEW" with
        | None => inl (OutOfRange "NVIDIA_STEREO_VIEW")
        | Some v =>
            if bool_decide (v = "0") || use_post_gs then
              inr (mkShader (path_args ++
                     ["/$$rp/shader/default_post_process_stereo.geom.glsl"]))
            else inr (mkShader path_args)
        end
      else
        inr (mkShader ("/$$rp/shader/default_post_process.vert.glsl" :: path_args))
    else inr (mkShader path_args).

(** [RenderStage::load_shader]. *)
Definition load_shader (defs : gmap string string) (args : list Filename)
    (stereo_post use_post_gs : bool) : Exception + Shader :=
  get_shader_handle defs "/$$rp/shader/" args stereo_post use_post_gs.

End Methods.
End Stage.

(** Results of methods that may throw or dereference a null pointer. *)
Inductive Outcome (A : Type) :=
| Ok (a : A)
| Throw (e : Exception)
| NullDereference.

Arguments Ok {A} _.
Arguments Throw {A} _.
Arguments NullDereference {A}.

(** ** UpdatePreviousPipesStage *)

Module UpdatePreviousPipesStage.

Record Members := mkMembers {
  transfers_ : list (TexPtr * TexPtr);
  target_ : option string
}.

(** [get_sampler_type(tex, can_write)]. *)
Definition get_sampler_type (tex : Texture) (can_write : bool) : string :=
  if can_write then
    if decide (texture_type tex = TT_2d_texture_array)
    then "writeonly image2DArray" else "writeonly image2D"
  else
    if decide (texture_type tex = TT_2d_texture_array)
    then "sampler2DArray" else "sampler2D".

Definition get_sampler_lookup (tex : Texture)
    (dest_name sampler_name coord_var : string) : string :=
  "vec4 " +:+ dest_name +:+ " = texelFetch(" +:+ sampler_name +:+ ", "
    +:+ coord_var +:+ ", 0);".

Definition get_store_code (tex : Texture)
    (sampler_name coord_var data_var : string) : string :=
  "imageStore(" +:+ sampler_name +:+ ", " +:+ coord_var +:+ ", vec4("
    +:+ data_var +:+ "));".

(** One round of the loop of [set_dimensions]. *)
Definition resize_transfer (res : Z * Z) (h : TexPtr -> Texture)
    (from_to : TexPtr * TexPtr) : TexPtr -> Texture :=
  let h1 := <[from_to.2 := set_x_size res.1 (h from_to.2)]> h in
  let h2 := <[from_to.2 := set_y_size res.2 (h1 from_to.2)]> h1 in
  if decide (texture_type (h2 from_to.2) = TT_2d_texture_array) then
    <[from_to.2 := set_z_size (z_size (h2 from_to.1)) (h2 from_to.2)]> h2
  else h2.

(** [UpdatePreviousPipesStage::set_dimensions]. *)
Definition set_dimensions (s : RenderStage Members) (w : World)
  : RenderStage Members * World :=
  (s, set_textures
        (fold_left (resize_transfer (resolution w)) (transfers_ (derived s))
           (textures w)) w).

#[export] Instance virtuals : StageVirtuals Members := {
  get_plugin_id := fun _ => "render_pipeline_internal";
  set_dimensions := set_dimensions
}.

(** The shader inputs set by the loop of [create], from index [i] on. *)
Fixpoint create_inputs (t : string) (i : nat) (ts : list (TexPtr * TexPtr))
  : list Call :=
  match ts with
  | [] => []
  | from_to :: rest =>
      let string_i := pretty i in
      CallTargetSetShaderInput t ("SrcTex" +:+ string_i) from_to.1
      :: CallTargetSetShaderInput t ("DestTex" +:+ string_i) from_to.2
      :: create_inputs t (S i) rest
  end.

(** [UpdatePreviousPipesStage::create]. *)
Definition create (s : RenderStage Members) (w : World)
  : Outcome (RenderStage Members * World) :=
  let w := emit (CallDebug "Creating previous pipes stage ..") w in
  let '(p, s, w) := Stage.create_target "StorePreviousPipes" s w in
  let s := Stage.with_derived (mkMembers (transfers_ (derived s)) p) s in
  match p with
  | None => NullDereference
  | Some t =>
      let w := emit (CallTargetPrepareBuffer t) w in
      Ok (s, emit_all (create_inputs t 0 (transfers_ (derived s))) w)
  end.

(** The first loop of [reload_shaders], from index [i] on: the uniforms
    and the lines of copy code. *)
Fixpoint collect (h : TexPtr -> Texture) (i : nat)
    (ts : list (TexPtr * TexPtr)) : list string * list string :=
  match ts with
  | [] => ([], [])
  | from_to :: rest =>
      let index := pretty i in
      let first := h from_to.1 in
      let second := h from_to.2 in
      let uniforms :=
        [get_sampler_type first false +:+ " " +:+ "SrcTex" +:+ index;
         get_sampler_type second true +:+ " " +:+ "DestTex" +:+ index] in
      let head :=
        (nl +:+ "  // Copying ") +:+ tex_name first +:+ " to "
          +:+ tex_name second in
      let copy :=
        if decide (texture_type first = TT_2d_texture_array) then
          ["for (int z = 0, z_end=textureSize(SrcTex" +:+ index
             +:+ ", 0).z; z < z_end; ++z) {";
           get_sampler_lookup first ("data" +:+ index) ("SrcTex" +:+ index)
             "ivec3(coord_2d_int, z)";
           get_store_code second ("DestTex" +:+ index)
             "ivec3(coord_2d_int, z)" ("data" +:+ index);
           "}" +:+ nl]
        else
          [get_sampler_lookup first ("data" +:+ index) ("SrcTex" +:+ index)
             "coord_2d_int";
           get_store_code second ("DestTex" +:+ index) "coord_2d_int"
             ("data" +:+ index)] in
      let '(us, ls) := collect h (S i) rest in
      (uniforms ++ us, (head :: copy) ++ [nl] ++ ls)
  end.

Definition uniform_decl (uniform : string) : string :=
  "uniform " +:+ uniform +:+ ";" +:+ nl.

Definition body_line (line : string) : string := "  " +:+ line +:+ nl.

Definition concat_strings (l : list string) : string :=
  fold_right String.append "" l.

(** The text assembled in [fragment]. *)
Definition fragment_text (uniforms lines : list string) : string :=
  ("#version 430" +:+ nl +:+ nl
     +:+ "// Autogenerated, do not edit! Your changes will be lost."
     +:+ nl +:+ nl)
  +:+ concat_strings (map uniform_decl uniforms)
  +:+ (nl +:+ "void main() {" +:+ nl
         +:+ "  const ivec2 coord_2d_int = ivec2(gl_FragCoord.xy);" +:+ nl)
  +:+ concat_strings (map body_line lines)
  +:+ ("}" +:+ nl).

Definition shader_dest : Filename := "/$$rptemp/$$update_previous_pipes.frag.glsl".

(** Streaming [text] into [rppanda::open_write_file(dest, false, true)]
    inside the [try] block: when the file cannot be opened the exception is caught
    and reported. *)
Definition write_shader (dest : Filename) (text : string) (w : World) : World :=
  match write_failure w dest with
  | None => set_files (<[dest := text]> (files w)) w
  | Some what => emit (CallError ("Error writing shader autoconfig: " +:+ what)) w
  end.

(** [UpdatePreviousPipesStage::reload_shaders].  The call
    [load_shader({ shader_dest })] leaves the arguments [stereo_post] and
    [use_post_gs] to their defaults, which render_stage.hpp declares; they
    are the parameters [default_stereo_post] and [default_use_post_gs]. *)
Definition reload_shaders (default_stereo_post default_use_post_gs : bool)
    (s : RenderStage Members) (w : World)
  : Outcome (RenderStage Members * World) :=
  let '(uniforms, lines) := collect (textures w) 0 (transfers_ (derived s)) in
  let fragment := fragment_text uniforms lines in
  let w := write_shader shader_dest fragment w in
  match Stage.load_shader (defines w) [shader_dest]
          default_stereo_post default_use_post_gs with
  | inl e => Throw e
  | inr shader =>
      match target_ (derived s) with
      | None => NullDereference
      | Some t => Ok (s, emit (CallTargetSetShader t shader) w)
      end
  end.

End UpdatePreviousPipesStage.

(** ** ProbeManager (rpplugins/env_probes) *)

Module ProbeManager.

(** [BoundingVolume::IntersectionFlags]: zero is [IF_no_intersection]. *)
Definition IF_no_intersection : Z := 0.

(** A [std::shared_ptr<EnvironmentProbe>] is an address into the probe
    store. *)
Definition ProbePtr := nat.

(** The members of an [EnvironmentProbe] the manager reads or writes;
    [B] is the type of its bounding volume. *)
Record EnvironmentProbe (B : Type) := mkProbe {
  last_update : Z;
  index : Z;
  bounds : B
}.

Arguments mkProbe {B} _ _ _.
Arguments last_update {B} _.
Arguments index {B} _.
Arguments bounds {B} _.

(** The members of the [ProbeManager] object. *)
Record Manager := mkManager {
  _probes : list ProbePtr;
  _max_probes : nat;         (* as [size() >= _max_probes] compares it *)
  _resolution : Z;
  _diffuse_resolution : Z;
  _cubemap_storage : option string;
  _diffuse_storage : option string;
  _dataset_storage : option string
}.

Definition with_probes (ps : list ProbePtr) (m : Manager) : Manager :=
  mkManager ps (_max_probes m) (_resolution m) (_diffuse_resolution m)
    (_cubemap_storage m) (_diffuse_storage m) (_dataset_storage m).

(** The manager, the probe objects and the messages passed to [error]. *)
Record State (B : Type) := mkState {
  manager : Manager;
  probe_store : ProbePtr -> EnvironmentProbe B;
  errors : list string
}.

Arguments mkState {B} _ _ _.
Arguments manager {B} _.
Arguments probe_store {B} _.
Arguments errors {B} _.

(** The object built by [new ProbeManager]: no probes and no storage
    images yet; the three sizes start from the member initialisers of
    probe_manager.hpp, which are parameters here. *)
Definition fresh (max_probes : nat) (resolution diffuse_resolution : Z) : Manager :=
  mkManager [] max_probes resolution diffuse_resolution None None None.

Definition set_resolution (v : Z) (m : Manager) : Manager :=
  mkManager (_probes m) (_max_probes m) v (_diffuse_resolution m)
    (_cubemap_storage m) (_diffuse_storage m) (_dataset_storage m).

Definition set_diffuse_resolution (v : Z) (m : Manager) : Manager :=
  mkManager (_probes m) (_max_probes m) (_resolution m) v
    (_cubemap_storage m) (_diffuse_storage m) (_dataset_storage m).

(** [set_max_probes(int)]: the bound is compared with [size()], hence as
    a [size_t]. *)
Definition set_max_probes (v : Z) (m : Manager) : Manager :=
  mkManager (_probes m) (Z.to_nat (v mod 2 ^ 64)) (_resolution m)
    (_diffuse_resolution m)
    (_cubemap_storage m) (_diffuse_storage m) (_dataset_storage m).

(** [ProbeManager::init]: the three storage images. *)
Definition init (m : Manager) : Manager :=
  mkManager (_probes m) (_max_probes m) (_resolution m) (_diffuse_resolution m)
    (Some "EnvmapStorage") (Some "EnvmapDiffStorage") (Some "EnvmapData").

Section Methods.
Context {B : Type}.

Definition set_last_update (v : Z) (p : EnvironmentProbe B) : EnvironmentProbe B :=
  mkProbe v (index p) (bounds p).

Definition set_index (v : Z) (p : EnvironmentProbe B) : EnvironmentProbe B :=
  mkProbe (last_update p) v (bounds p).

(** [ProbeManager::add_probe]. *)
Definition add_probe (probe : ProbePtr) (st : State B) : bool * State B :=
  let m := manager st in
  if (_max_probes m <=? length (_probes m))%nat then
    (false,
     mkState m (probe_store st)
       (errors st ++ ["Cannot attach probe, out of slots!"]))
  else
    let h1 := <[probe := set_last_update (-1) (probe_store st probe)]>
                (probe_store st) in
    let h2 := <[probe := set_index (Z.of_nat (length (_probes m))) (h1 probe)]>
                h1 in
    (true, mkState (with_probes (_probes m ++ [probe]) m) h2 (errors st)).

(** A run of [add_probe] calls, with the results of the calls. *)
Fixpoint add_probes (ps : list ProbePtr) (st : State B) : list bool * State B :=
  match ps with
  | [] => ([], st)
  | p :: rest =>
      let '(r, st1) := add_probe p st in
      let '(rs, st2) := add_probes rest st1 in
      (r :: rs, st2)
  end.

(** Every stored probe's index is its position in the list. *)
Definition indexed (st : State B) : Prop :=
  ∀ i p, _probes (manager st) !! i = Some p →
         index (probe_store st p) = Z.of_nat i.

(** The test of the loop of [find_probe_to_update]: the frustum does not
    answer [IF_no_intersection] for the bounds of the candidate. *)
Definition visible (view_frustum_contains : B -> Z)
    (store : ProbePtr -> EnvironmentProbe B) (candidate : ProbePtr) : bool :=
  negb (view_frustum_contains (bounds (store candidate)) =? IF_no_intersection)%Z.

(** The comparison handed to [std::sort]. *)
Definition older (h : ProbePtr -> EnvironmentProbe B) (lhs rhs : ProbePtr) : bool :=
  (last_update (h lhs) <? last_update (h rhs))%Z.

(** One behaviour of [std::sort]: insertion into a sorted list. *)
Fixpoint insert_sorted (lt : ProbePtr -> ProbePtr -> bool) (x : ProbePtr)
    (l : list ProbePtr) : list ProbePtr :=
  match l with
  | [] => [x]
  | y :: rest => if lt y x then y :: insert_sorted lt x rest else x :: l
  end.

Definition insertion_sort (lt : ProbePtr -> ProbePtr -> bool)
    (l : list ProbePtr) : list ProbePtr :=
  fold_right (insert_sorted lt) [] l.

(** [ProbeManager::find_probe_to_update].  [view_frustum_contains] is
    [view_frustum->contains(bounds)] for the frustum of the camera;
    [std_sort] is the library's [std::sort], which may order probes of
    equal [last_update] in any way. *)
Definition find_probe_to_update
    (view_frustum_contains : B -> Z)
    (std_sort : (ProbePtr -> ProbePtr -> bool) -> list ProbePtr -> list ProbePtr)
    (st : State B) : option ProbePtr * State B :=
  match _probes (manager st) with
  | [] => (None, st)
  | _ =>
      let probes := _probes (manager st) in
      let probes := std_sort (older (probe_store st)) probes in
      (List.find (visible view_frustum_contains (probe_store st)) probes, st)
  end.

End Methods.
End ProbeManager.

(** ** The environment probe plugin *)

Module EnvProbesPlugin.

(** The stage classes the plugin instantiates. *)
Inductive StageClass :=
| EnvironmentCaptureStage
| CullProbesStage
| ApplyEnvprobesStage.

(** What the plugin sets on its capture stage. *)
Record CaptureStage := mkCapture {
  capture_resolution : Z;
  capture_diffuse_resolution : Z;
  storage_tex : option string;
  storage_tex_diffuse : option string
}.

(** The pipeline as the plugin sees it. *)
Record Pipeline := mkPipeline {
  enabled_plugins : gset string;          (* is_plugin_enabled *)
  added_stages : list StageClass;         (* add_stage, in call order *)
  capture_required_pipes : list string;   (* capture stage, get_required_pipes() *)
  capture_required_inputs : list string;  (* capture stage, get_required_inputs() *)
  cull_lights_required_inputs : list string;
    (* CullLightsStage::get_global_required_inputs() *)
  input_blocks : list (string * list string)  (* add_input_blocks *)
}.

(** The integer settings read by [on_stage_setup]. *)
Record Settings := mkSettings {
  probe_resolution : Z;
  diffuse_probe_resolution : Z;
  max_probes : Z
}.

Record Impl := mkImpl {
  probe_mgr_ : option ProbeManager.Manager;
  capture_stage_ : option CaptureStage;
  cull_stage_ : bool;
  apply_stage_ : bool;
  data_ubo_ : option (string * list string)
}.

Definition is_plugin_enabled (p : Pipeline) (id : string) : bool :=
  bool_decide (id ∈ enabled_plugins p).

Definition add_stage (c : StageClass) (p : Pipeline) : Pipeline :=
  mkPipeline (enabled_plugins p) (added_stages p ++ [c])
    (capture_required_pipes p) (capture_required_inputs p)
    (cull_lights_required_inputs p) (input_blocks p).

Definition push_required_pipe (name : string) (p : Pipeline) : Pipeline :=
  mkPipeline (enabled_plugins p) (added_stages p)
    (capture_required_pipes p ++ [name]) (capture_required_inputs p)
    (cull_lights_required_inputs p) (input_blocks p).

Definition push_required_input (name : string) (p : Pipeline) : Pipeline :=
  mkPipeline (enabled_plugins p) (added_stages p)
    (capture_required_pipes p) (capture_required_inputs p ++ [name])
    (cull_lights_required_inputs p) (input_blocks p).

(** [EnvProbesPlugin::Impl::setup_inputs]. *)
Definition setup_inputs (i : Impl) (p : Pipeline) : Impl * Pipeline :=
  let data_ubo :=
    ("EnvProbes", ["num_probes"; "cubemaps"; "diffuse_cubemaps"; "dataset"]) in
  (mkImpl (probe_mgr_ i) (capture_stage_ i) (cull_stage_ i) (apply_stage_ i)
     (Some data_ubo),
   mkPipeline (enabled_plugins p) (added_stages p)
     (capture_required_pipes p) (capture_required_inputs p)
     (cull_lights_required_inputs p ++ ["EnvProbes"])
     (input_blocks p ++ [data_ubo])).

(** [EnvProbesPlugin::Impl::setup_stages]; [mgr] is [*probe_mgr_]. *)
Definition setup_stages (mgr : ProbeManager.Manager) (i : Impl) (p : Pipeline)
  : Impl * Pipeline :=
  let p := add_stage EnvironmentCaptureStage p in
  let capture :=
    mkCapture (ProbeManager._resolution mgr)
      (ProbeManager._diffuse_resolution mgr)
      (ProbeManager._cubemap_storage mgr)
      (ProbeManager._diffuse_storage mgr) in
  let p := add_stage CullProbesStage p in
  let p := add_stage ApplyEnvprobesStage p in
  let p :=
    if is_plugin_enabled p "scattering" then
      push_required_pipe "ScatteringIBLDiffuse"
        (push_required_pipe "ScatteringIBLSpecular" p)
    else p in
  let p :=
    if is_plugin_enabled p "pssm" then
      push_required_input "PSSMSceneSunShadowMVP"
        (push_required_pipe "PSSMSceneSunShadowMapPCF" p)
    else p in
  setup_inputs (mkImpl (Some mgr) (Some capture) true true (data_ubo_ i)) p.

(** [EnvProbesPlugin::Impl::on_stage_setup]; [new_manager] is the object
    [new ProbeManager] returns. *)
Definition on_stage_setup (new_manager : ProbeManager.Manager)
    (cfg : Settings) (i : Impl) (p : Pipeline) : Impl * Pipeline :=
  let mgr := new_manager in
  let mgr := ProbeManager.set_resolution (probe_resolution cfg) mgr in
  let mgr := ProbeManager.set_diffuse_resolution (diffuse_probe_resolution cfg) mgr in
  let mgr := ProbeManager.set_max_probes (max_probes cfg) mgr in
  let mgr := ProbeManager.init mgr in
  setup_stages mgr i p.

End EnvProbesPlugin.

(** ** The stage manager *)

Module StageManager.

(** Modelled from the spec: the stage manager (rpcore/stage_manager.cpp) is
    not among the sources.  A registered stage as the manager sees it: its
    id, the pipes it requires and the pipes it produces. *)
Record StageDecl := mkDecl {
  decl_id : string;
  required_pipes : list string;
  produced_pipes : list string
}.

#[export] Instance StageDecl_eq_dec : EqDecision StageDecl.
Proof. solve_decision. Defined.

(** Modelled from the spec: the resource-dependency relation of the stage
    manager; [s] depends on [t] when [s] requires a pipe that [t]
    produces. *)
Definition depends_on (s t : StageDecl) : Prop :=
  ∃ p, p ∈ required_pipes s ∧ p ∈ produced_pipes t.

(** Modelled from the spec: the test of [depends_on] the manager runs. *)
Definition depends_onb (s t : StageDecl) : bool :=
  existsb (fun p => bool_decide (p ∈ produced_pipes t)) (required_pipes s).

(** Modelled from the spec: a stage can be scheduled once no stage still
    pending produces one of its pipes. *)
Definition ready (pending : list StageDecl) (s : StageDecl) : bool :=
  forallb (fun t => negb (depends_onb s t)) pending.

(** Modelled from the spec: the first element satisfying [P], and the list
    without it. *)
Fixpoint extract {A : Type} (P : A -> bool) (l : list A) : option (A * list A) :=
  match l with
  | [] => None
  | x :: rest =>
      if P x then Some (x, rest)
      else match extract P rest with
           | Some (y, rest') => Some (y, x :: rest')
           | None => None
           end
  end.

(** Modelled from the spec: the topological sort of the stage manager,
    which schedules a ready stage until none is pending; [None] when the
    pending stages depend on each other in a cycle. *)
Fixpoint order_stages (fuel : nat) (pending : list StageDecl)
  : option (list StageDecl) :=
  match pending with
  | [] => Some []
  | _ =>
      match fuel with
      | O => None
      | S fuel' =>
          match extract (ready pending) pending with
          | None => None
          | Some (s, rest) =>
              match order_stages fuel' rest with
              | Some order => Some (s :: order)
              | None => None
              end
          end
      end
  end.

Definition sort_stages (stages : list StageDecl) : option (list StageDecl) :=
  order_stages (length stages) stages.

(** Modelled from the spec: the callbacks the manager triggers. *)
Inductive Callback := Setup | Update | Reload.

(** Modelled from the spec: triggering a callback invokes it on every
    stage, in the sorted order; the result lists the invocations. *)
Definition trigger (cb : Callback) (stages : list StageDecl)
  : option (list (Callback * StageDecl)) :=
  match sort_stages stages with
  | Some order => Some (map (fun s => (cb, s)) order)
  | None => None
  end.

(** Modelled from the spec: the dependency graph on the registered stages
    and its acyclicity. *)
Definition edge (stages : list StageDecl) (s t : StageDecl) : Prop :=
  s ∈ stages ∧ t ∈ stages ∧ depends_on s t.

Definition acyclic (stages : list StageDecl) : Prop :=
  ∀ s, ¬ tc (edge stages) s s.

(** Modelled from the spec: in a topological order a stage comes after
    every stage that produces a pipe it requires. *)
Definition topological (order : list StageDecl) : Prop :=
  ∀ i j s t, order !! i = Some s → order !! j = Some t →
    depends_on s t → (j < i)%nat.

(** The invariant of [order_stages]: a list in which no stage depends on
    itself or on a stage further down. *)
Inductive scheduled : list StageDecl → Prop :=
| scheduled_nil : scheduled []
| scheduled_cons s l :
    (∀ t, t ∈ s :: l → ¬ depends_on s t) → scheduled l → scheduled (s :: l).

(** Three stages of the deferred pipeline, registered out of order. *)
Definition demo_stages : list StageDecl :=
  [mkDecl "AmbientStage" ["GBuffer"; "ShadedScene"] ["AmbientScene"];
   mkDecl "ApplyLightsStage" ["GBuffer"] ["ShadedScene"];
   mkDecl "GBufferStage" [] ["GBuffer"]].

End StageManager.

(** ** A stage and a world to run the methods on *)

Module Samples.
Import UpdatePreviousPipesStage.

(** The texture store: the scene depth at address 0, its copy of the
    previous frame elsewhere. *)
Definition pipes : TexPtr -> Texture := fun p =>
  mkTexture (if decide (p = 0%nat) then "SceneDepth" else "PreviousSceneDepth")
    TT_2d_texture 64 64 1.

(** The stage before [create], with one transfer. *)
Definition stage0 : RenderStage Members :=
  mkStage "UpdatePreviousPipesStage" true ∅ (mkMembers [(0, 1)]%nat None).

Definition world0 : World := mkWorld [] pipes (1280, 720) ∅ ∅ (fun _ => None).

End Samples.

(** ** Paths and the virtual directories *)

(** The path lies under the directory: it starts with the directory and
    a slash. *)
Definition under_dir (dir path : Filename) : bool :=
  String.prefix (dir +:+ "/") path.

(** The test of [get_shader_handle] on an argument: the name of one of
    the three virtual directories occurs somewhere in the path. *)
Definition mentions_prefix (path : Filename) : bool :=
  existsb (fun p => contains p (to_os_generic path)) Stage.prefix_table.

(** ** The hooks of the environment probe plugin *)

Module EnvProbesHooks.
Import ProbeManager.

(** What the plugin sets on its capture stage at run time:
    [capture_stage_->set_probe(probe)]. *)
Record CaptureMembers := mkCaptureMembers { probe_ : option ProbePtr }.

(** The plugin at run time.  [B] is the type of bounding volumes,
    [Buffer] the RAM image of the dataset storage. *)
Record Plugin (B Buffer : Type) := mkPlugin {
  probe_mgr_ : State B;               (* [*probe_mgr_] and the probe objects *)
  dataset : Buffer;                   (* [_dataset_storage] *)
  pta_probes_ : Z;                    (* [pta_probes_[0]] *)
  capture_stage_ : RenderStage CaptureMembers;
  engine : World;
  next_probe : ProbePtr;              (* the address [make_shared] hands out next *)
  removed_nodes : list nat;           (* node paths passed to [remove_node] *)
  focus_requests : list ProbePtr      (* [PSSMPlugin::request_focus] calls *)
}.

Arguments mkPlugin {B Buffer} _ _ _ _ _ _ _ _.
Arguments probe_mgr_ {B Buffer} _.
Arguments dataset {B Buffer} _.
Arguments pta_probes_ {B Buffer} _.
Arguments capture_stage_ {B Buffer} _.
Arguments engine {B Buffer} _.
Arguments next_probe {B Buffer} _.
Arguments removed_nodes {B Buffer} _.
Arguments focus_requests {B Buffer} _.

Section Hooks.
Context {B Buffer Mat : Type}.

(** Members of [EnvironmentProbe] and [ProbeManager] that are declared in
    headers outside the sources: whether a probe is modified, how it
    writes itself to the dataset, the probe [make_shared] constructs, what
    [set_mat], [set_border_smoothness] and [set_parallax_correction] do
    to a probe, and [get_num_probes]. *)
Variable is_modified : EnvironmentProbe B -> bool.
Variable write_to_buffer : EnvironmentProbe B -> Buffer -> EnvironmentProbe B * Buffer.
Variable new_probe : EnvironmentProbe B.
Variable configure : Mat -> EnvironmentProbe B -> EnvironmentProbe B.
Variable get_num_probes : Manager -> Z.

(** The loop of [ProbeManager::update]. *)
Fixpoint update_loop (ps : list ProbePtr) (h : ProbePtr -> EnvironmentProbe B)
    (buffer_ptr : Buffer) : (ProbePtr -> EnvironmentProbe B) * Buffer :=
  match ps with
  | [] => (h, buffer_ptr)
  | probe :: rest =>
      if is_modified (h probe) then
        let '(written, buffer_ptr) := write_to_buffer (h probe) buffer_ptr in
        update_loop rest (<[probe := written]> h) buffer_ptr
      else update_loop rest h buffer_ptr
  end.

(** [ProbeManager::update]. *)
Definition update (st : State B) (buffer_ptr : Buffer) : State B * Buffer :=
  let '(h, buffer_ptr) :=
    update_loop (_probes (manager st)) (probe_store st) buffer_ptr in
  (mkState (manager st) h (errors st), buffer_ptr).

(** One round of the loop of [EnvProbesPlugin::on_prepare_scene] for the
    node path [node] with matrix [mat]. *)
Definition prepare_probe (pl : Plugin B Buffer) (match_ : nat * Mat)
  : Plugin B Buffer :=
  let probe := next_probe pl in
  let st := probe_mgr_ pl in
  let st := mkState (manager st) (<[probe := new_probe]> (probe_store st))
              (errors st) in
  let st := (add_probe probe st).2 in
  let st := mkState (manager st)
              (<[probe := configure match_.2 (probe_store st probe)]>
                 (probe_store st))
              (errors st) in
  mkPlugin st (dataset pl) (pta_probes_ pl) (capture_stage_ pl) (engine pl)
    (S probe) (removed_nodes pl ++ [match_.1]) (focus_requests pl).

(** [EnvProbesPlugin::on_prepare_scene]; [ep_npc] is the collection
    [scene.find_all_matches] returns, each node path with its matrix. *)
Definition on_prepare_scene (ep_npc : list (nat * Mat)) (pl : Plugin B Buffer)
  : Plugin B Buffer :=
  fold_left prepare_probe ep_npc pl.

(** [capture_stage_->set_probe(probe)]. *)
Definition set_probe (probe : ProbePtr) (s : RenderStage CaptureMembers)
  : RenderStage CaptureMembers :=
  mkStage (stage_id_ s) (active_ s) (targets_ s) (mkCaptureMembers (Some probe)).

(** [EnvProbesPlugin::on_pre_render_update].  [scheduled] is
    [is_scheduled("envprobes_select_and_cull")], [frame_count] is
    [Globals::clock->get_frame_count()], [pssm] is
    [is_plugin_enabled("pssm")]. *)
Definition on_pre_render_update
    (view_frustum_contains : B -> Z)
    (std_sort : (ProbePtr -> ProbePtr -> bool) -> list ProbePtr -> list ProbePtr)
    (scheduled : bool) (frame_count : Z) (pssm : bool)
    (pl : Plugin B Buffer) : Plugin B Buffer :=
  if scheduled then
    let '(st, buffer) := update (probe_mgr_ pl) (dataset pl) in
    let pta := get_num_probes (manager st) in
    match (find_probe_to_update view_frustum_contains std_sort st).1 with
    | Some probe =>
        let st := mkState (manager st)
                    (<[probe := set_last_update frame_count (probe_store st probe)]>
                       (probe_store st))
                    (errors st) in
        let '(capture, w) := Stage.set_active true (capture_stage_ pl) (engine pl) in
        let capture := set_probe probe capture in
        mkPlugin st buffer pta capture w (next_probe pl) (removed_nodes pl)
          (if pssm then focus_requests pl ++ [probe] else focus_requests pl)
    | None =>
        let '(capture, w) := Stage.set_active false (capture_stage_ pl) (engine pl) in
        mkPlugin st buffer pta capture w (next_probe pl) (removed_nodes pl)
          (focus_requests pl)
    end
  else pl.

End Hooks.
End EnvProbesHooks.

(** ** Loader (rppanda/showbase/loader.cpp) *)

Module Loader.
Section PreLoad.

(** The bit masks [LoaderOptions::LF_report_errors], [LF_no_cache] and
    [LF_allow_instance] of the host engine. *)
Variables LF_report_errors LF_no_cache LF_allow_instance : Z.

(** [Loader::Impl::pre_load_model]: the flags of [this_options] and
    [this_ok_missing] after the call.  A [boost::optional<bool>] is an
    [option bool]. *)
Definition pre_load_model (flags : Z) (no_cache : option bool)
    (allow_instance : bool) (ok_missing : option bool) : Z * bool :=
  let '(flags, this_ok_missing) :=
    match ok_missing with
    | Some this_ok_missing =>
        if this_ok_missing
        then (Z.land flags (Z.lnot LF_report_errors), this_ok_missing)
        else (Z.lor flags LF_report_errors, this_ok_missing)
    | None => (flags, (Z.land flags LF_report_errors =? 0)%Z)
    end in
  let flags :=
    match no_cache with
    | Some true => Z.land flags (Z.lnot LF_no_cache)
    | Some false => Z.lor flags LF_no_cache
    | None => flags
    end in
  let flags :=
    if allow_instance then Z.lor flags LF_allow_instance else flags in
  (flags, this_ok_missing).

(** [Loader::load_model] for one path.  [load_sync] is the engine's
    loader, which returns a null node when it cannot load; the result is
    the node path, [None] when it is empty.  The [std::runtime_error] the
    function constructs for a missing model is not thrown. *)
Definition load_model {Node : Type} (load_sync : Filename -> Z -> option Node)
    (model_path : Filename) (loader_options : Z) (no_cache : option bool)
    (allow_instance : bool) (ok_missing : option bool) : option Node :=
  let '(this_options, this_ok_missing) :=
    pre_load_model loader_options no_cache allow_instance ok_missing in
  let node := load_sync model_path this_options in
  let result := match node with Some n => Some n | None => None end in
  result.

(** [Loader::load_model] for a list of paths. *)
Definition load_models {Node : Type} (load_sync : Filename -> Z -> option Node)
    (model_list : list Filename) (loader_options : Z) (no_cache : option bool)
    (allow_instance : bool) (ok_missing : option bool) : list (option Node) :=
  let '(this_options, this_ok_missing) :=
    pre_load_model loader_options no_cache allow_instance ok_missing in
  map (fun model_path =>
         match load_sync model_path this_options with
         | Some n => Some n
         | None => None
         end) model_list.

End PreLoad.
End Loader.

(** ** AssimpLoader::find_node (rpassimp/assimpLoader.cxx) *)

Module AssimpLoader.

(** An [aiNode]: its name and its children. *)
Unset Elimination Schemes.
Inductive aiNode := mkNode (mName : string) (mChildren : list aiNode).
Set Elimination Schemes.

Definition mName (n : aiNode) : string := let '(mkNode name _) := n in name.
Definition mChildren (n : aiNode) : list aiNode :=
  let '(mkNode _ children) := n in children.

(** [AssimpLoader::find_node]; [None] is the null pointer. *)
Fixpoint find_node (root : aiNode) (name : string) : option aiNode :=
  let '(mkNode root_name children) := root in
  if decide (root_name = name) then Some root
  else
    (fix loop (l : list aiNode) : option aiNode :=
       match l with
       | [] => None
       | child :: rest =>
           match find_node child name with
           | Some node => Some node
           | None => loop rest
           end
       end) children.

(** The nodes of a tree, a node before its children and the children
    from first to last. *)
Fixpoint preorder (root : aiNode) : list aiNode :=
  let '(mkNode _ children) := root in
  root :: (fix loop (l : list aiNode) : list aiNode :=
             match l with
             | [] => []
             | child :: rest => preorder child ++ loop rest
             end) children.

End AssimpLoader.

(** ** DisplayShaderBuilder (rpcore/util/display_shader_builder.cpp) *)

Module DisplayShaderBuilder.

(** [Texture::ComponentType]. *)
Inductive ComponentType :=
| T_unsigned_byte
| T_unsigned_short
| T_float
| T_unsigned_int_24_8
| T_int
| T_byte
| T_short
| T_half_float
| T_unsigned_int.

#[export] Instance ComponentType_eq_dec : EqDecision ComponentType.
Proof. solve_decision. Defined.

(** The double quote of the C++ literals. *)
Definition dq : string := String "034"%char EmptyString.

Definition float_types : list ComponentType := [T_float; T_unsigned_byte].
Definition int_types : list ComponentType :=
  [T_int; T_unsigned_short; T_unsigned_int_24_8].

(** The macro [IS_IN(VALUE, CONTAINER)]. *)
Definition IS_IN (value : ComponentType) (container : list ComponentType) : bool :=
  bool_decide (value ∈ container).

(** The result [generate_sampling_code] starts from. *)
Definition fallback : string * string := ("result = vec3(1, 0, 1);", "sampler2D").

Section Build.

(** What [std::to_string] and [fmt::format] print for the two
    enumerations of the host engine. *)
Variable texture_type_string : TextureType -> string.
Variable component_type_string : ComponentType -> string.

(** [DisplayShaderBuilder::generate_sampling_code]: the pair of the
    sampling code and the sampler type, with the messages passed to
    [global_warn]. *)
Definition generate_sampling_code (texture_type : TextureType)
    (comp_type : ComponentType) : (string * string) * list string :=
  let int_coord :=
    "ivec2 int_coord = ivec2(texcoord * textureSize(p3d_Texture0, mipmap).xy);" in
  let slice_count := "int slice_count = textureSize(p3d_Texture0, 0).z;" in
  let result := fallback in
  let warnings :=
    if negb (IS_IN comp_type float_types) && negb (IS_IN comp_type int_types)
    then ["Unkown texture component type: " +:+ component_type_string comp_type]
    else [] in
  match texture_type with
  | TT_2d_texture =>
      (if IS_IN comp_type float_types then
         ("result = textureLod(p3d_Texture0, texcoord, mipmap).xyz;", "sampler2D")
       else if IS_IN comp_type int_types then
         (int_coord +:+ "result = texelFetch(p3d_Texture0, int_coord, mipmap).xyz / 10.0;",
          "isampler2D")
       else result, warnings)
  | TT_buffer_texture =>
      let range_check := fun code : string =>
        "if (int_index < textureSize(p3d_Texture0)) {" +:+ code
          +:+ "} else { result = vec3(1.0, 0.6, 0.2);};" in
      (if IS_IN comp_type float_types then
         (range_check "result = texelFetch(p3d_Texture0, int_index).xyz;",
          "samplerBuffer")
       else if IS_IN comp_type int_types then
         (range_check "result = texelFetch(p3d_Texture0, int_index).xyz / 10.0;",
          "isamplerBuffer")
       else result, warnings)
  | TT_3d_texture =>
      (if IS_IN comp_type float_types then
         (slice_count +:+
            "result = textureLod(p3d_Texture0, vec3(texcoord, (0.5 + slice) / slice_count), mipmap).xyz;",
          "sampler3D")
       else if IS_IN comp_type int_types then
         (int_coord +:+
            "result = texelFetch(p3d_Texture0, ivec3(int_coord, slice), mipmap).xyz / 10.0;",
          "isampler3D")
       else result, warnings)
  | TT_2d_texture_array =>
      (if IS_IN comp_type float_types then
         ("result = textureLod(p3d_Texture0, vec3(texcoord, slice), mipmap).xyz;",
          "sampler2DArray")
       else if IS_IN comp_type int_types then
         (int_coord +:+
            "result = texelFetch(p3d_Texture0, ivec3(int_coord, slice), mipmap).xyz / 10.0;",
          "isampler2DArray")
       else result, warnings)
  | TT_cube_map =>
      (("vec3 sample_dir = get_cubemap_coordinate(slice, texcoord*2-1);" +:+ nl
          +:+ "result = textureLod(p3d_Texture0, sample_dir, mipmap).xyz;",
        "samplerCube"), warnings)
  | TT_cube_map_array =>
      (("vec3 sample_dir = get_cubemap_coordinate(slice % 6, texcoord*2-1);" +:+ nl
          +:+ "result = textureLod(p3d_Texture0, vec4(sample_dir, slice / 6), mipmap).xyz;",
        "samplerCubeArray"), warnings)
  | _ =>
      (result,
       warnings ++ ["Unhandled texture type " +:+ texture_type_string texture_type
                      +:+ " in display shader builder"])
  end.

(** [DisplayShaderBuilder::build_fragment_shader]. *)
Definition build_fragment_shader (texture_type : TextureType)
    (comp_type : ComponentType) (view_width view_height : Z)
  : string * list string :=
  let '(sampling_code_type, warnings) :=
    generate_sampling_code texture_type comp_type in
  ("#version 430" +:+ nl
   +:+ "#pragma include " +:+ dq +:+ "render_pipeline_base.inc.glsl" +:+ dq +:+ nl
   +:+ "in vec2 texcoord;" +:+ nl
   +:+ "out vec3 result;" +:+ nl
   +:+ "uniform int mipmap;" +:+ nl
   +:+ "uniform int slice;" +:+ nl
   +:+ "uniform float brightness;" +:+ nl
   +:+ "uniform bool tonemap;" +:+ nl
   +:+ "uniform " +:+ sampling_code_type.2 +:+ " p3d_Texture0;" +:+ nl
   +:+ "void main() {" +:+ nl
   +:+ "    int view_width = " +:+ pretty view_width +:+ ";" +:+ nl
   +:+ "    int view_height = " +:+ pretty view_height +:+ ";" +:+ nl
   +:+ "    ivec2 display_coord = ivec2(texcoord * vec2(view_width, view_height));" +:+ nl
   +:+ "    int int_index = display_coord.x + display_coord.y * view_width;" +:+ nl
   +:+ "    " +:+ sampling_code_type.1 +:+ nl
   +:+ "    result *= brightness;" +:+ nl
   +:+ "    if (tonemap)" +:+ nl
   +:+ "        result = result / (1 + result);" +:+ nl
   +:+ "}" +:+ nl,
   warnings).

(** The cache key [build] formats. *)
Definition cache_key (texture : Texture) (comp_type : ComponentType)
    (view_width view_height : Z) : Filename :=
  "/$$rptemp/$$TEXDISPLAY-X" +:+ pretty (x_size texture)
  +:+ "-Y" +:+ pretty (y_size texture)
  +:+ "-Z" +:+ pretty (z_size texture)
  +:+ "-TT" +:+ texture_type_string (texture_type texture)
  +:+ "-CT" +:+ component_type_string comp_type
  +:+ "-VW" +:+ pretty view_width
  +:+ "-VH" +:+ pretty view_height +:+ ".frag.glsl".

(** [DisplayShaderBuilder::build]; [comp_type] is
    [texture->get_component_type()], [rppanda::isfile] asks the virtual
    file system.  The result is the shader, the warnings and the world. *)
Definition build (texture : Texture) (comp_type : ComponentType)
    (view_width view_height : Z) (w : World) : Shader * list string * World :=
  let key := cache_key texture comp_type view_width view_height in
  let '(warnings, w) :=
    match files w !! key with
    | Some _ => ([], w)
    | None =>
        let '(fragment_shader, warnings) :=
          build_fragment_shader (texture_type texture) comp_type
            view_width view_height in
        (warnings,
         match write_failure w key with
         | None => set_files (<[key := fragment_shader]> (files w)) w
         | Some what =>
             emit (CallError ("Error writing processed shader: " +:+ what)) w
         end)
    end in
  (mkShader ["/$$rp/shader/default_gui_shader.vert.glsl"; key], warnings, w).

End Build.
End DisplayShaderBuilder.

(** * Properties *)

(** ** The stage manager *)

Section StageManagerFacts.
Import StageManager.

Lemma depends_onb_spec s t : depends_onb s t = true ↔ depends_on s t.
Proof.
  unfold depends_onb, depends_on. rewrite existsb_exists. split.
  - intros [p [Hp Hq]]. exists p. apply bool_decide_eq_true in Hq.
    split; [by apply list_elem_of_In | done].
  - intros [p [Hp Hq]]. exists p. split; [by apply list_elem_of_In |].
    by apply bool_decide_eq_true.
Qed.

Lemma ready_spec pending s :
  ready pending s = true ↔ ∀ t, t ∈ pending → ¬ depends_on s t.
Proof.
  unfold ready. rewrite forallb_forall. split.
  - intros Hall t Ht Hd. apply list_elem_of_In in Ht.
    specialize (Hall t Ht). apply depends_onb_spec in Hd.
    rewrite Hd in Hall. discriminate.
  - intros Hall t Ht. apply list_elem_of_In in Ht.
    destruct (depends_onb s t) eqn:E; [|done].
    apply depends_onb_spec in E. by destruct (Hall t Ht).
Qed.

Lemma not_ready_successor pending s :
  ready pending s = false → ∃ t, t ∈ pending ∧ depends_on s t.
Proof.
  unfold ready. induction pending as [|a l IH]; simpl; [discriminate|].
  destruct (depends_onb s a) eqn:E; simpl.
  - intros _. exists a. split; [left | by apply depends_onb_spec].
  - intros Hl. destruct (IH Hl) as [t [Ht Hd]]. exists t. split; [by right | done].
Qed.

Lemma extract_some {A} (P : A → bool) l x rest :
  extract P l = Some (x, rest) → P x = true ∧ l ≡ₚ x :: rest.
Proof.
  revert x rest. induction l as [|a l IH]; intros x rest; simpl; [discriminate|].
  destruct (P a) eqn:E.
  - intros [= <- <-]. done.
  - destruct (extract P l) as [[y r]|] eqn:E2; [|discriminate].
    intros [= <- <-]. destruct (IH _ _ eq_refl) as [Hy Hp]. split; [done|].
    rewrite Hp. apply Permutation_swap.
Qed.

Lemma extract_none {A} (P : A → bool) l :
  extract P l = None → ∀ x, x ∈ l → P x = false.
Proof.
  induction l as [|a l IH]; simpl; intros Hn x Hx.
  - by apply elem_of_nil in Hx.
  - destruct (P a) eqn:E; [discriminate|].
    destruct (extract P l) as [[y r]|] eqn:E2; [discriminate|].
    apply elem_of_cons in Hx as [-> | Hx]; [done | by apply IH].
Qed.

(** Walking along successors inside a finite list must come back to a
    vertex already seen. *)
Lemma walk_finds_cycle (R : relation StageDecl) (pending : list StageDecl) :
  (∀ s, s ∈ pending → ∃ t, t ∈ pending ∧ R s t) →
  ∀ n seen x,
    (length pending - length seen ≤ n)%nat →
    NoDup seen → (∀ z, z ∈ seen → z ∈ pending) → x ∈ seen →
    (∀ z, z ∈ seen → rtc R z x) →
    ∃ c, tc R c c.
Proof.
  intros Hsucc.
  assert (Hback : ∀ (seen : list StageDecl) x y, x ∈ seen → (∀ z, z ∈ seen → rtc R z x) →
            R x y → y ∈ seen → ∃ c, tc R c c).
  { intros seen x y Hx Hreach Hxy Hin. exists y.
    eapply tc_rtc_l; [by apply Hreach | by apply tc_once]. }
  assert (Hext : ∀ (seen : list StageDecl) x y, (∀ z, z ∈ seen → rtc R z x) → R x y →
            ∀ z, z ∈ y :: seen → rtc R z y).
  { intros seen x y Hreach Hxy z Hz.
    apply elem_of_cons in Hz as [-> | Hz]; [done|].
    eapply rtc_r; [by apply Hreach | done]. }
  assert (Hsub' : ∀ (seen : list StageDecl) y, y ∈ pending → (∀ z, z ∈ seen → z ∈ pending) →
            ∀ z, z ∈ y :: seen → z ∈ pending).
  { intros seen y Hy Hsub z Hz. apply elem_of_cons in Hz as [-> | Hz]; auto. }
  intros n. induction n as [|n IH]; intros seen x Hn Hnd Hsub Hx Hreach;
    destruct (Hsucc x (Hsub x Hx)) as [y [Hy Hxy]];
    destruct (decide (y ∈ seen)) as [Hin | Hnin]; eauto.
  - exfalso.
    assert (Hle : (length (y :: seen) ≤ length pending)%nat).
    { apply submseteq_length, NoDup_submseteq; [by constructor | eauto]. }
    simpl in Hle. lia.
  - apply (IH (y :: seen) y); eauto.
    + simpl. lia.
    + by constructor.
    + left.
Qed.

Lemma tc_edge_mono (pending stages : list StageDecl) c d :
  (∀ x, x ∈ pending → x ∈ stages) →
  tc (edge pending) c d → tc (edge stages) c d.
Proof.
  intros Hsub Htc. induction Htc as [x y Hxy | x y z Hxy _ IH].
  - apply tc_once. destruct Hxy as (? & ? & ?). repeat split; auto.
  - eapply tc_l; [|exact IH]. destruct Hxy as (? & ? & ?). repeat split; auto.
Qed.

(** In an acyclic graph some pending stage is ready. *)
Lemma acyclic_extract_ready stages pending :
  acyclic stages → (∀ x, x ∈ pending → x ∈ stages) → pending ≠ [] →
  ∃ s rest, extract (ready pending) pending = Some (s, rest).
Proof.
  intros Hac Hsub Hne.
  destruct (extract (ready pending) pending) as [[s rest]|] eqn:E; [eauto|].
  exfalso.
  destruct pending as [|a l]; [done|].
  destruct (walk_finds_cycle (edge (a :: l)) (a :: l)) with
    (n := length (a :: l)) (seen := [a]) (x := a) as [c Hc].
  - intros s Hs. pose proof (extract_none _ _ E s Hs) as Hr.
    destruct (not_ready_successor _ _ Hr) as [t [Ht Hd]].
    exists t. by repeat split.
  - simpl. lia.
  - apply NoDup_singleton.
  - intros z Hz. apply list_elem_of_singleton in Hz as ->. left.
  - left.
  - intros z Hz. apply list_elem_of_singleton in Hz as ->. done.
  - apply (Hac c). by apply (tc_edge_mono (a :: l)).
Qed.

Lemma scheduled_topological order : scheduled order → topological order.
Proof.
  induction 1 as [|s l Hs Hl IH]; intros i j x y Hi Hj Hd.
  - by rewrite lookup_nil in Hi.
  - destruct i as [|i]; simpl in Hi.
    + injection Hi as <-. exfalso. apply (Hs y); [|done].
      apply list_elem_of_lookup. by exists j.
    + destruct j as [|j]; simpl in Hj; [lia|].
      specialize (IH i j x y Hi Hj Hd). lia.
Qed.

Lemma order_stages_sorts stages :
  acyclic stages →
  ∀ fuel pending,
    (∀ x, x ∈ pending → x ∈ stages) → (length pending ≤ fuel)%nat →
    ∃ order, order_stages fuel pending = Some order ∧
             order ≡ₚ pending ∧ scheduled order.
Proof.
  intros Hac fuel. induction fuel as [|fuel IH]; intros pending Hsub Hlen.
  - destruct pending; [|simpl in Hlen; lia].
    exists []. repeat split; constructor.
  - destruct pending as [|a l].
    { exists []. repeat split; constructor. }
    destruct (acyclic_extract_ready stages (a :: l) Hac Hsub) as [s [rest E]];
      [done|].
    pose proof (extract_some _ _ _ _ E) as [Hr Hp].
    destruct (IH rest) as [order [Ho [Hperm Hsch]]].
    + intros x Hx. apply Hsub. rewrite Hp. by right.
    + apply Permutation_length in Hp. simpl in *. lia.
    + exists (s :: order).
      change (order_stages (S fuel) (a :: l)) with
        (match extract (ready (a :: l)) (a :: l) with
         | None => None
         | Some (s, rest) =>
             match order_stages fuel rest with
             | Some order => Some (s :: order)
             | None => None
             end
         end).
      rewrite E, Ho. repeat split.
      * rewrite Hp. by constructor.
      * constructor; [|done].
        intros t Ht. apply (proj1 (ready_spec _ _) Hr).
        rewrite Hp. by rewrite <- Hperm.
Qed.

End StageManagerFacts.

(** A ranking that decreases along every dependency rules out cycles. *)
Lemma ranked_acyclic (stages : list StageManager.StageDecl)
    (rank : StageManager.StageDecl → nat) :
  (∀ s t, s ∈ stages → t ∈ stages → StageManager.depends_onb s t = true →
          (rank t < rank s)%nat) →
  StageManager.acyclic stages.
Proof.
  intros Hrank.
  assert (Hlt : ∀ s t, tc (StageManager.edge stages) s t → (rank t < rank s)%nat).
  { intros s t Htc. induction Htc as [x y Hxy | x y z Hxy _ IH].
    - destruct Hxy as (Hx & Hy & Hd). apply Hrank; auto.
      by apply depends_onb_spec.
    - destruct Hxy as (Hx & Hy & Hd). apply depends_onb_spec in Hd.
      specialize (Hrank x y Hx Hy Hd). lia. }
  intros s Hs. specialize (Hlt s s Hs). lia.
Qed.

(** C1.  For every set of registered stages whose dependency graph is
    acyclic, the stage manager's sort succeeds, its result is a
    rearrangement of the registered stages in which every stage comes
    after each stage producing a pipe it requires, and the setup, update
    and reload callbacks are invoked stage by stage in exactly that
    order. *)
Theorem stage_manager_dependency_order (stages : list StageManager.StageDecl) :
  StageManager.acyclic stages →
  ∃ order,
    StageManager.sort_stages stages = Some order ∧
    order ≡ₚ stages ∧
    StageManager.topological order ∧
    ∀ cb, StageManager.trigger cb stages = Some (map (fun s => (cb, s)) order).
Proof.
  intros Hac.
  destruct (order_stages_sorts stages Hac (length stages) stages)
    as [order [Ho [Hp Hs]]]; [done | done |].
  exists order. repeat split; [done | done | by apply scheduled_topological |].
  intros cb. unfold StageManager.trigger, StageManager.sort_stages. by rewrite Ho.
Qed.

Lemma demo_stages_acyclic :
  StageManager.acyclic StageManager.demo_stages.
Proof.
  apply (ranked_acyclic _ (fun s => length (StageManager.required_pipes s))).
  intros s t Hs Ht. unfold StageManager.demo_stages in *.
  repeat (apply elem_of_cons in Hs as [-> | Hs]);
    repeat (apply elem_of_cons in Ht as [-> | Ht]);
    try (by apply elem_of_nil in Hs); try (by apply elem_of_nil in Ht);
    vm_compute; intros; try discriminate; lia.
Defined.

Lemma stage_manager_dependency_order_witness :
  ∃ order,
    StageManager.sort_stages StageManager.demo_stages = Some order ∧
    order ≡ₚ StageManager.demo_stages ∧
    StageManager.topological order ∧
    ∀ cb, StageManager.trigger cb StageManager.demo_stages
          = Some (map (fun s => (cb, s)) order).
Proof.
  apply (stage_manager_dependency_order StageManager.demo_stages).
  apply demo_stages_acyclic.
Defined.

Example demo_stages_sorted :
  StageManager.decl_id <$>
    default [] (StageManager.sort_stages StageManager.demo_stages)
  = ["GBufferStage"; "ApplyLightsStage"; "AmbientStage"].
Proof. vm_compute. reflexivity. Qed.

(** ** RenderStage *)

Section RenderStageFacts.
Context {D : Type} `{StageVirtuals D}.

Lemma target_names_elem (s : RenderStage D) (name : string) :
  name ∈ Stage.target_names s ↔ ∃ t, targets_ s !! name = Some t.
Proof.
  unfold Stage.target_names. rewrite list_elem_of_fmap. split.
  - intros [[k t] [-> Hin]]. exists t. by apply elem_of_map_to_list in Hin.
  - intros [t Ht]. exists (name, t). split; [done|].
    by apply elem_of_map_to_list.
Qed.

Lemma target_names_NoDup (s : RenderStage D) : NoDup (Stage.target_names s).
Proof. apply NoDup_fst_map_to_list. Qed.

(** One call per owned target, whatever the call is. *)
Lemma per_target_calls (f : string → Call) `{!Inj (=) (=) f} (s : RenderStage D) :
  NoDup (f <$> Stage.target_names s) ∧
  ∀ c, c ∈ f <$> Stage.target_names s ↔
       ∃ name t, targets_ s !! name = Some t ∧ c = f name.
Proof.
  split.
  - apply NoDup_fmap_2; [done | apply target_names_NoDup].
  - intros c. rewrite list_elem_of_fmap. split.
    + intros [name [-> Hin]]. apply target_names_elem in Hin as [t Ht]. eauto.
    + intros [name [t [Ht ->]]]. exists name. split; [done|].
      apply target_names_elem. eauto.
Qed.

End RenderStageFacts.

#[local] Instance CallTargetConsiderResize_inj : Inj (=) (=) CallTargetConsiderResize.
Proof. by intros ?? [= ->]. Qed.

#[local] Instance CallTargetSetActive_inj b :
  Inj (=) (=) (fun n => CallTargetSetActive n b).
Proof. by intros ?? [= ->]. Qed.

(** C2.  [handle_window_resize] first runs the stage's [set_dimensions]
    hook and then, on the state the hook left, calls [consider_resize]
    once on every render target the stage owns and on nothing else. *)
Theorem handle_window_resize_resizes_targets
    {D : Type} `{StageVirtuals D} (s : RenderStage D) (w : World) :
  let s1 := (set_dimensions s w).1 in
  let w1 := (set_dimensions s w).2 in
  ∃ calls,
    Stage.handle_window_resize s w = (s1, emit_all calls w1) ∧
    trace (Stage.handle_window_resize s w).2 = trace w1 ++ calls ∧
    NoDup calls ∧
    ∀ c, c ∈ calls ↔
         ∃ name t, targets_ s1 !! name = Some t ∧
                   c = CallTargetConsiderResize name.
Proof.
  intros s1 w1. exists (CallTargetConsiderResize <$> Stage.target_names s1).
  unfold Stage.handle_window_resize, s1, w1.
  destruct (set_dimensions s w) as [s' w'] eqn:E. simpl.
  repeat split; try done; by apply (per_target_calls CallTargetConsiderResize).
Qed.

(** C6.  After [set_active b] the active flag is [b].  When [b] differs
    from the flag the stage had, [set_active b] is called once on every
    owned render target; when it equals the flag, stage and world are
    returned as they were and no target is called. *)
Theorem set_active_sets_flag_and_targets
    {D : Type} `{StageVirtuals D} (b : bool) (s : RenderStage D) (w : World) :
  let s' := (Stage.set_active b s w).1 in
  let w' := (Stage.set_active b s w).2 in
  active_ s' = b ∧
  stage_id_ s' = stage_id_ s ∧ targets_ s' = targets_ s ∧ derived s' = derived s ∧
  (active_ s ≠ b →
     ∃ calls, w' = emit_all calls w ∧ NoDup calls ∧
       ∀ c, c ∈ calls ↔
            ∃ name t, targets_ s !! name = Some t ∧
                      c = CallTargetSetActive name b) ∧
  (active_ s = b → s' = s ∧ w' = w).
Proof.
  unfold Stage.set_active.
  destruct (active_ s) eqn:Ea, b; simpl; repeat split; try done;
    intros _;
    eexists; (split; [reflexivity|]);
    first [ apply (per_target_calls (fun n => CallTargetSetActive n true) s)
          | apply (per_target_calls (fun n => CallTargetSetActive n false) s) ].
Qed.

(** C3.  [create_target name] builds the name
    [<plugin_id>:<stage_id>:<name>].  When the stage has no target of that
    name it stores a new target under it, leaves every other entry alone
    and returns a pointer to the new target; when it has one, it reports
    an error, returns [nullptr] and leaves the stage unchanged.  Every
    stored target carries the name it is stored under, so a name
    identifies one target. *)
Theorem create_target_registers
    {D : Type} `{StageVirtuals D} (name : string) (s : RenderStage D) (w : World) :
  let fq := get_plugin_id s +:+ ":" +:+ stage_id_ s +:+ ":" +:+ name in
  let r := Stage.create_target name s w in
  (targets_ s !! fq = None →
     r = (Some fq, Stage.with_targets (<[fq := mkTarget fq]> (targets_ s)) s, w) ∧
     targets_ r.1.2 !! fq = Some (mkTarget fq) ∧
     (∀ other, other ≠ fq → targets_ r.1.2 !! other = targets_ s !! other) ∧
     size (targets_ r.1.2) = S (size (targets_ s))) ∧
  (∀ t, targets_ s !! fq = Some t →
     r = (None, s, emit (CallError ("Overriding existing target: " +:+ fq)) w) ∧
     targets_ r.1.2 = targets_ s) ∧
  ((∀ k t, targets_ s !! k = Some t → rt_name t = k) →
   ∀ k t, targets_ r.1.2 !! k = Some t → rt_name t = k).
Proof.
  intros fq r. unfold r, Stage.create_target, Stage.target_name. fold fq.
  destruct (targets_ s !! fq) as [t0|] eqn:E; simpl.
  - split; [done|]. split; [by intros t [= <-] | done].
  - split.
    + intros _. repeat split.
      * apply lookup_insert_eq.
      * intros other Hne. by apply lookup_insert_ne.
      * by apply map_size_insert_None.
    + split; [done|]. intros Hinv k t.
      destruct (decide (k = fq)) as [-> | Hne].
      * rewrite lookup_insert_eq. by intros [= <-].
      * rewrite lookup_insert_ne by done. apply Hinv.
Qed.

Lemma append_cons (c : ascii) (s t : string) :
  String c s +:+ t = String c (s +:+ t).
Proof. reflexivity. Qed.

Lemma append_nil (t : string) : "" +:+ t = t.
Proof. reflexivity. Qed.

Lemma prefix_spec (needle hay : string) :
  String.prefix needle hay = true ↔ ∃ post, hay = needle +:+ post.
Proof.
  revert needle. induction hay as [|d h IH]; intros [|c n]; simpl.
  - split; [intros _; by exists "" | done].
  - split; [done | intros [post Hp]; by rewrite append_cons in Hp].
  - split; [intros _; by exists (String d h) | done].
  - destruct (Ascii.ascii_dec c d) as [-> | Hne].
    + rewrite IH. split; intros [post Hp]; exists post;
        rewrite append_cons in *; congruence.
    + split; [done | intros [post Hp]; rewrite append_cons in Hp; congruence].
Qed.

Lemma contains_spec (needle hay : string) :
  contains needle hay = true ↔ ∃ pre post, hay = pre +:+ needle +:+ post.
Proof.
  induction hay as [|c h IH].
  - cbn [contains]. rewrite orb_false_r, prefix_spec. split.
    + intros [post Hp]. by exists "", post.
    + intros [pre [post Hp]]. destruct pre as [|d pre].
      * by exists post.
      * by rewrite append_cons in Hp.
  - cbn [contains]. rewrite orb_true_iff, prefix_spec, IH. split.
    + intros [[post Hp] | [pre [post Hp]]].
      * by exists "", post.
      * exists (String c pre), post. by rewrite append_cons, Hp.
    + intros [pre [post Hp]]. destruct pre as [|d pre].
      * left. by exists post.
      * right. exists pre, post. rewrite append_cons in Hp. congruence.
Qed.

(** The file name of a prefix-free source is put under the base path. *)
Lemma resolve_path_spec (base_path source : Filename) :
  ((∃ p pre post, p ∈ Stage.prefix_table ∧ source = pre +:+ p +:+ post) →
     Stage.resolve_path base_path source = source) ∧
  ((¬ ∃ p pre post, p ∈ Stage.prefix_table ∧ source = pre +:+ p +:+ post) →
     Stage.resolve_path base_path source = join base_path source).
Proof.
  unfold Stage.resolve_path, to_os_generic.
  destruct (existsb _ Stage.prefix_table) eqn:E.
  - split; [done|]. intros Hn. exfalso. apply Hn.
    apply existsb_exists in E as [p [Hp Hc]].
    apply contains_spec in Hc as [pre [post Hc]].
    exists p, pre, post. split; [by apply list_elem_of_In | done].
  - split; [|done]. intros [p [pre [post [Hp Hs]]]].
    assert (existsb (fun p => contains p source) Stage.prefix_table = true) as Ht.
    { apply existsb_exists. exists p. split; [by apply list_elem_of_In|].
      apply contains_spec. eauto. }
    congruence.
Qed.

(** C8, as stated, fails: with one argument, [stereo_post] and
    [use_post_gs] both true and no NVIDIA_STEREO_VIEW define, the claim
    has the stereo vertex shader prepended and the stereo geometry shader
    appended, but the lookup of the define throws [std::out_of_range]. *)
Lemma get_shader_handle_define_missing :
  Stage.get_shader_handle ∅ "/$$rp/shader/" ["blur.frag.glsl"] true true
    = inl (OutOfRange "NVIDIA_STEREO_VIEW") ∧
  Stage.get_shader_handle ∅ "/$$rp/shader/" ["blur.frag.glsl"] true true
    ≠ inr (mkShader ["/$$rp/shader/default_post_process_stereo.vert.glsl";
                     "/$$rp/shader/blur.frag.glsl";
                     "/$$rp/shader/default_post_process_stereo.geom.glsl"]).
Proof. split; [vm_compute; reflexivity | vm_compute; discriminate]. Qed.

(** C8, amended.  [get_shader_handle] throws [std::runtime_error] exactly
    when the argument list is empty or longer than three.  Every argument
    that contains none of the three prefixes is put under the base path,
    the others are kept.  With two or three arguments these paths are
    loaded as they are.  With one argument and [stereo_post] false the
    default vertex shader is prepended.  With one argument and
    [stereo_post] true the NVIDIA_STEREO_VIEW define is looked up: when it
    is missing [std::out_of_range] is thrown; when it is present the
    stereo vertex shader is prepended, and the stereo geometry shader is
    appended when the define is "0" or [use_post_gs] is true. *)
Theorem get_shader_handle_amended
    (defs : gmap string string) (base_path : Filename) (args : list Filename)
    (stereo_post use_post_gs : bool) :
  let r := Stage.get_shader_handle defs base_path args stereo_post use_post_gs in
  let resolved := map (Stage.resolve_path base_path) args in
  ((∃ what, r = inl (RuntimeError what)) ↔ args = [] ∨ (3 < length args)%nat) ∧
  (length args = 1%nat → stereo_post = false →
     r = inr (mkShader ("/$$rp/shader/default_post_process.vert.glsl" :: resolved))) ∧
  (length args = 1%nat → stereo_post = true →
     defs !! "NVIDIA_STEREO_VIEW" = None →
     r = inl (OutOfRange "NVIDIA_STEREO_VIEW")) ∧
  (length args = 1%nat → stereo_post = true →
     ∀ v, defs !! "NVIDIA_STEREO_VIEW" = Some v →
     r = inr (mkShader
                ("/$$rp/shader/default_post_process_stereo.vert.glsl" :: resolved
                 ++ (if bool_decide (v = "0") || use_post_gs
                     then ["/$$rp/shader/default_post_process_stereo.geom.glsl"]
                     else [])))) ∧
  (length args = 2%nat ∨ length args = 3%nat → r = inr (mkShader resolved)) ∧
  (∀ source,
     ((∃ p pre post, p ∈ Stage.prefix_table ∧ source = pre +:+ p +:+ post) →
        Stage.resolve_path base_path source = source) ∧
     ((¬ ∃ p pre post, p ∈ Stage.prefix_table ∧ source = pre +:+ p +:+ post) →
        Stage.resolve_path base_path source = join base_path source)).
Proof.
  intros r resolved. unfold r, Stage.get_shader_handle. fold resolved.
  repeat split.
  - destruct args as [|a [|b [|c [|d l]]]]; simpl; intros [what Hw];
      [by left | exfalso; repeat case_match; discriminate | discriminate..
      | right; lia].
  - intros [-> | Hl]; [simpl; eauto|].
    destruct args as [|a [|b [|c [|d l]]]]; simpl in *; try lia; eauto.
  - intros Hl ->. destruct args as [|a [|b l]]; simpl in *; try lia. done.
  - intros Hl -> Hd. destruct args as [|a [|b l]]; simpl in *; try lia.
    by rewrite Hd.
  - intros Hl -> v Hd. destruct args as [|a [|b l]]; simpl in *; try lia.
    rewrite Hd. by destruct (bool_decide (v = "0") || use_post_gs).
  - intros [Hl | Hl]; destruct args as [|a [|b [|c [|d l]]]]; simpl in *;
      try lia; done.
  - apply resolve_path_spec.
  - apply resolve_path_spec.
Qed.

(** ** The environment probe plugin *)

(** C4.  [on_stage_setup] adds exactly three stages, the capture stage,
    the cull stage and the apply stage, in this order.  It appends the
    pipes ScatteringIBLSpecular and ScatteringIBLDiffuse to the required
    pipes of the capture stage exactly when the scattering plugin is
    enabled, and the pipe PSSMSceneSunShadowMapPCF and the input
    PSSMSceneSunShadowMVP exactly when the pssm plugin is enabled. *)
Theorem on_stage_setup_adds_stages
    (new_manager : ProbeManager.Manager)
    (cfg : EnvProbesPlugin.Settings) (i : EnvProbesPlugin.Impl)
    (p : EnvProbesPlugin.Pipeline) :
  let p' := (EnvProbesPlugin.on_stage_setup new_manager cfg i p).2 in
  let scattering := bool_decide ("scattering" ∈ EnvProbesPlugin.enabled_plugins p) in
  let pssm := bool_decide ("pssm" ∈ EnvProbesPlugin.enabled_plugins p) in
  EnvProbesPlugin.added_stages p' =
    EnvProbesPlugin.added_stages p ++
      [EnvProbesPlugin.EnvironmentCaptureStage;
       EnvProbesPlugin.CullProbesStage;
       EnvProbesPlugin.ApplyEnvprobesStage] ∧
  EnvProbesPlugin.capture_required_pipes p' =
    EnvProbesPlugin.capture_required_pipes p ++
      (if scattering then ["ScatteringIBLSpecular"; "ScatteringIBLDiffuse"] else []) ++
      (if pssm then ["PSSMSceneSunShadowMapPCF"] else []) ∧
  EnvProbesPlugin.capture_required_inputs p' =
    EnvProbesPlugin.capture_required_inputs p ++
      (if pssm then ["PSSMSceneSunShadowMVP"] else []) ∧
  EnvProbesPlugin.enabled_plugins p' = EnvProbesPlugin.enabled_plugins p.
Proof.
  intros p' scattering pssm.
  unfold p', EnvProbesPlugin.on_stage_setup, EnvProbesPlugin.setup_stages,
    EnvProbesPlugin.is_plugin_enabled. simpl.
  fold scattering. destruct scattering; simpl; fold pssm; destruct pssm; simpl;
    repeat split; rewrite <- ?app_assoc; simpl; rewrite ?app_nil_r; done.
Qed.

(** ** UpdatePreviousPipesStage *)

Section UpdatePreviousPipesFacts.
Import UpdatePreviousPipesStage.

Lemma resize_transfer_other res h src dst t :
  t ≠ dst → resize_transfer res h (src, dst) t = h t.
Proof.
  intros Hne. unfold resize_transfer. simpl.
  case_decide; rewrite ?fn_lookup_insert_ne by done; done.
Qed.

Lemma resize_transfer_dest res h src dst :
  src ≠ dst →
  resize_transfer res h (src, dst) dst =
    mkTexture (tex_name (h dst)) (texture_type (h dst)) res.1 res.2
      (if decide (texture_type (h dst) = TT_2d_texture_array)
       then z_size (h src) else z_size (h dst)).
Proof.
  intros Hne. unfold resize_transfer. simpl.
  rewrite !fn_lookup_insert. simpl.
  case_decide; rewrite ?fn_lookup_insert, ?fn_lookup_insert_ne by done; done.
Qed.

(** Textures that are no destination are not written. *)
Lemma fold_resize_other res ts : ∀ h t,
  t ∉ ts.*2 → fold_left (resize_transfer res) ts h t = h t.
Proof.
  induction ts as [|[src dst] ts IH]; intros h t Hnot; simpl; [done|].
  simpl in Hnot. apply not_elem_of_cons in Hnot as [Hne Hnot].
  rewrite IH by done. by apply resize_transfer_other.
Qed.

Lemma fold_resize_dest res ts :
  NoDup ts.*2 → (∀ a b, a ∈ ts.*1 → b ∈ ts.*2 → a ≠ b) →
  ∀ h src dst, (src, dst) ∈ ts →
    fold_left (resize_transfer res) ts h dst =
      mkTexture (tex_name (h dst)) (texture_type (h dst)) res.1 res.2
        (if decide (texture_type (h dst) = TT_2d_texture_array)
         then z_size (h src) else z_size (h dst)).
Proof.
  induction ts as [|[s0 d0] ts IH]; intros Hnd Hdis h src dst Hin; simpl.
  - by apply elem_of_nil in Hin.
  - simpl in Hnd. apply NoDup_cons in Hnd as [Hd0 Hnd].
    apply elem_of_cons in Hin as [[= -> ->] | Hin].
    + rewrite fold_resize_other by done.
      apply resize_transfer_dest. apply Hdis; simpl; left.
    + assert (Hs : src ∈ ts.*1) by (apply list_elem_of_fmap; by exists (src, dst)).
      assert (Hd : dst ∈ ts.*2) by (apply list_elem_of_fmap; by exists (src, dst)).
      rewrite (IH Hnd) with (src := src); [| |done].
      * rewrite !resize_transfer_other; [done| |].
        -- apply Hdis; simpl; [by right | left].
        -- intros ->. done.
      * intros a b Ha Hb. apply Hdis; simpl; by right.
Qed.

Lemma resize_transfer_dest_any res h src dst :
  resize_transfer res h (src, dst) dst =
    mkTexture (tex_name (h dst)) (texture_type (h dst)) res.1 res.2
      (if decide (texture_type (h dst) = TT_2d_texture_array)
       then z_size (h src) else z_size (h dst)).
Proof.
  destruct (decide (src = dst)) as [-> | Hne]; [|by apply resize_transfer_dest].
  unfold resize_transfer. simpl. rewrite !fn_lookup_insert. simpl.
  case_decide; rewrite ?fn_lookup_insert; done.
Qed.

(** What the loop of [set_dimensions] keeps, whatever the transfers. *)
Lemma fold_resize_keeps res ts : ∀ h,
  (∀ t, tex_name (fold_left (resize_transfer res) ts h t) = tex_name (h t) ∧
        texture_type (fold_left (resize_transfer res) ts h t) = texture_type (h t)) ∧
  (∀ t, t ∈ ts.*2 →
        x_size (fold_left (resize_transfer res) ts h t) = res.1 ∧
        y_size (fold_left (resize_transfer res) ts h t) = res.2) ∧
  (∀ t, texture_type (h t) ≠ TT_2d_texture_array →
        z_size (fold_left (resize_transfer res) ts h t) = z_size (h t)).
Proof.
  induction ts as [|[src dst] ts IH]; intros h; simpl.
  - split; [done|]. split; [|done]. intros t Ht. by apply elem_of_nil in Ht.
  - destruct (IH (resize_transfer res h (src, dst))) as (Hnt & Hxy & Hz).
    assert (Hstep : ∀ t,
              tex_name (resize_transfer res h (src, dst) t) = tex_name (h t) ∧
              texture_type (resize_transfer res h (src, dst) t) = texture_type (h t)).
    { intros t. destruct (decide (t = dst)) as [-> | Hne].
      - by rewrite resize_transfer_dest_any.
      - by rewrite resize_transfer_other. }
    split; [|split].
    + intros t. destruct (Hnt t) as [-> ->]. apply Hstep.
    + intros t Ht. destruct (decide (t ∈ ts.*2)) as [Hin | Hnin]; [by apply Hxy|].
      apply elem_of_cons in Ht as [-> | Ht]; [|done].
      rewrite fold_resize_other by done. by rewrite resize_transfer_dest_any.
    + intros t Ht. rewrite Hz by (by rewrite (proj2 (Hstep t))).
      destruct (decide (t = dst)) as [-> | Hne].
      * rewrite resize_transfer_dest_any. simpl. by case_decide.
      * by rewrite resize_transfer_other.
Qed.

End UpdatePreviousPipesFacts.

(** C7, as stated, fails: when a texture is the destination of one transfer
    and the source of another, [set_dimensions] resizes it, so a source
    texture is changed. *)
Lemma set_dimensions_changes_shared_source :
  let h : TexPtr → Texture := fun _ => mkTexture "Pipe" TT_2d_texture 64 64 1 in
  let s := mkStage "UpdatePreviousPipesStage" true ∅
             (UpdatePreviousPipesStage.mkMembers [(0, 1); (1, 2)]%nat None) in
  let w := mkWorld [] h (800, 600) ∅ ∅ (fun _ => None) in
  let w' := (UpdatePreviousPipesStage.set_dimensions s w).2 in
  (1%nat ∈ (UpdatePreviousPipesStage.transfers_ (derived s)).*1) ∧
  textures w' 1%nat ≠ textures w 1%nat.
Proof.
  split.
  - simpl. right. left.
  - vm_compute. discriminate.
Qed.

(** C7, amended.  [set_dimensions] leaves the stage and everything in the
    world but the textures as they were, writes no texture that is not
    the destination of a transfer pair, keeps the name and the type of
    every texture, and gives every destination the global resolution as
    its x and y sizes.  When no texture is the destination of two pairs
    or both a source and a destination, then for every pair the
    destination gets the z size of the source if it is a 2D texture
    array and keeps its own z size otherwise, and the source is left
    unchanged. *)
Theorem set_dimensions_amended
    (s : RenderStage UpdatePreviousPipesStage.Members) (w : World) :
  let ts := UpdatePreviousPipesStage.transfers_ (derived s) in
  let s' := (UpdatePreviousPipesStage.set_dimensions s w).1 in
  let w' := (UpdatePreviousPipesStage.set_dimensions s w).2 in
  s' = s ∧
  trace w' = trace w ∧ resolution w' = resolution w ∧ defines w' = defines w ∧
  files w' = files w ∧ write_failure w' = write_failure w ∧
  (∀ t, t ∉ ts.*2 → textures w' t = textures w t) ∧
  (∀ src dst, (src, dst) ∈ ts →
     x_size (textures w' dst) = (resolution w).1 ∧
     y_size (textures w' dst) = (resolution w).2 ∧
     tex_name (textures w' dst) = tex_name (textures w dst) ∧
     texture_type (textures w' dst) = texture_type (textures w dst)) ∧
  (NoDup ts.*2 →
   (∀ a b, a ∈ ts.*1 → b ∈ ts.*2 → a ≠ b) →
   ∀ src dst, (src, dst) ∈ ts →
     z_size (textures w' dst) =
       (if decide (texture_type (textures w dst) = TT_2d_texture_array)
        then z_size (textures w src) else z_size (textures w dst)) ∧
     textures w' src = textures w src).
Proof.
  intros ts s' w'. unfold s', w', UpdatePreviousPipesStage.set_dimensions.
  simpl. fold ts.
  destruct (fold_resize_keeps (resolution w) ts (textures w)) as (Hnt & Hxy & _).
  do 6 (split; [done|]). split; [|split].
  - intros t Ht. by apply fold_resize_other.
  - intros src dst Hin.
    assert (Hd : dst ∈ ts.*2) by (apply list_elem_of_fmap; by exists (src, dst)).
    destruct (Hxy dst Hd) as [Hx Hy]. destruct (Hnt dst) as [Hn Ht]. done.
  - intros Hnd Hdis src dst Hin. split.
    + rewrite (fold_resize_dest _ ts Hnd Hdis _ src dst) by done. done.
    + apply fold_resize_other. intros Hin'.
      apply (Hdis src src); [|done|done].
      apply list_elem_of_fmap. by exists (src, dst).
Qed.

Lemma set_dimensions_amended_witness :
  let h : TexPtr → Texture := fun p =>
    mkTexture "Pipe"
      (if decide (p = 1%nat) then TT_2d_texture_array else TT_2d_texture)
      64 64 (Z.of_nat p + 2) in
  let s := mkStage "UpdatePreviousPipesStage" true ∅
             (UpdatePreviousPipesStage.mkMembers [(0, 1); (2, 3)]%nat None) in
  let w := mkWorld [] h (800, 600) ∅ ∅ (fun _ => None) in
  let w' := (UpdatePreviousPipesStage.set_dimensions s w).2 in
  x_size (textures w' 1%nat) = 800 ∧ y_size (textures w' 1%nat) = 600 ∧
  z_size (textures w' 1%nat) = 2 ∧ z_size (textures w' 3%nat) = 5 ∧
  textures w' 0%nat = textures w 0%nat.
Proof.
  intros h s w w'.
  destruct (set_dimensions_amended s w)
    as (_ & _ & _ & _ & _ & _ & _ & Hsizes & Hpairs).
  destruct (Hsizes 0%nat 1%nat) as (Hx & Hy & _); [left|].
  assert (Hnd : NoDup (UpdatePreviousPipesStage.transfers_ (derived s)).*2).
  { simpl. apply (bool_decide_unpack _). vm_compute. exact I. }
  assert (Hdis : ∀ a b, a ∈ (UpdatePreviousPipesStage.transfers_ (derived s)).*1 →
                        b ∈ (UpdatePreviousPipesStage.transfers_ (derived s)).*2 →
                        a ≠ b).
  { simpl. intros a b Ha Hb ->.
    repeat (apply elem_of_cons in Ha as [-> | Ha]);
      repeat (apply elem_of_cons in Hb as [Hb | Hb]); try discriminate;
      try (by apply elem_of_nil in Ha); by apply elem_of_nil in Hb. }
  destruct (Hpairs Hnd Hdis 0%nat 1%nat) as (Hz & Hs); [left|].
  destruct (Hpairs Hnd Hdis 2%nat 3%nat) as (Hz3 & _); [right; left|].
  exact (conj Hx (conj Hy (conj Hz (conj Hz3 Hs)))).
Defined.

Section ReloadShadersFacts.
Import UpdatePreviousPipesStage.

Lemma collect_length h ts : ∀ i,
  length (collect h i ts).1 = (2 * length ts)%nat.
Proof.
  induction ts as [|[src dst] ts IH]; intros i; simpl; [done|].
  specialize (IH (S i)). destruct (collect h (S i) ts) as [us ls]. simpl in *. lia.
Qed.

Lemma collect_lookup h ts : ∀ i k src dst,
  ts !! k = Some (src, dst) →
  (collect h i ts).1 !! (2 * k)%nat =
    Some (get_sampler_type (h src) false +:+ " " +:+ "SrcTex" +:+ pretty (i + k)%nat) ∧
  (collect h i ts).1 !! (2 * k + 1)%nat =
    Some (get_sampler_type (h dst) true +:+ " " +:+ "DestTex" +:+ pretty (i + k)%nat).
Proof.
  induction ts as [|[s0 d0] ts IH]; intros i k src dst Hk; [done|].
  cbn [collect]. specialize (IH (S i)).
  destruct (collect h (S i) ts) as [us ls]. cbn [fst snd] in *.
  destruct k as [|k]; simpl in Hk.
  - injection Hk as -> ->. replace (i + 0)%nat with i by lia. done.
  - destruct (IH k src dst Hk) as [H1 H2].
    replace (2 * S k)%nat with (S (S (2 * k))) by lia.
    replace (S (S (2 * k)) + 1)%nat with (S (S (2 * k + 1))) by lia.
    replace (i + S k)%nat with (S i + k)%nat by lia.
    split; [exact H1 | exact H2].
Qed.

End ReloadShadersFacts.

(** C5.  For a stage holding n transfer pairs and a target,
    [reload_shaders] generates 2n uniforms: for pair i the read uniform
    SrcTexi, a sampler2DArray if the source is a 2D texture array and a
    sampler2D otherwise, followed by the write uniform DestTexi, a
    writeonly image2DArray if the destination is a 2D texture array and a
    writeonly image2D otherwise.  The fragment text declares just these
    uniforms, one per line.  The text is written to
    /$$rptemp/$$update_previous_pipes.frag.glsl (a failure to open the
    file is reported), and the shader loaded from that file behind the
    default vertex shader is set on the target of the stage. *)
Theorem reload_shaders_generates_uniforms
    (s : RenderStage UpdatePreviousPipesStage.Members) (w : World) (t : string) :
  UpdatePreviousPipesStage.target_ (derived s) = Some t →
  let ts := UpdatePreviousPipesStage.transfers_ (derived s) in
  let h := textures w in
  let is_array (p : TexPtr) :=
    bool_decide (texture_type (h p) = TT_2d_texture_array) in
  let dest := "/$$rptemp/$$update_previous_pipes.frag.glsl" in
  ∃ uniforms lines text,
    length uniforms = (2 * length ts)%nat ∧
    (∀ i src dst, ts !! i = Some (src, dst) →
       uniforms !! (2 * i)%nat =
         Some ((if is_array src then "sampler2DArray" else "sampler2D")
               +:+ " " +:+ "SrcTex" +:+ pretty i) ∧
       uniforms !! (2 * i + 1)%nat =
         Some ((if is_array dst then "writeonly image2DArray"
                else "writeonly image2D")
               +:+ " " +:+ "DestTex" +:+ pretty i)) ∧
    text =
      ("#version 430" +:+ nl +:+ nl
         +:+ "// Autogenerated, do not edit! Your changes will be lost."
         +:+ nl +:+ nl)
      +:+ UpdatePreviousPipesStage.concat_strings
            (map (fun u => "uniform " +:+ u +:+ ";" +:+ nl) uniforms)
      +:+ (nl +:+ "void main() {" +:+ nl
             +:+ "  const ivec2 coord_2d_int = ivec2(gl_FragCoord.xy);" +:+ nl)
      +:+ UpdatePreviousPipesStage.concat_strings
            (map (fun l => "  " +:+ l +:+ nl) lines)
      +:+ ("}" +:+ nl) ∧
    let w1 := UpdatePreviousPipesStage.write_shader dest text w in
    (write_failure w dest = None →
       files w1 = <[dest := text]> (files w) ∧ trace w1 = trace w) ∧
    (∀ what, write_failure w dest = Some what →
       files w1 = files w ∧
       trace w1 = trace w ++
         [CallError ("Error writing shader autoconfig: " +:+ what)]) ∧
    (∀ use_post_gs,
       UpdatePreviousPipesStage.reload_shaders false use_post_gs s w =
         Ok (s, emit (CallTargetSetShader t
                        (mkShader ["/$$rp/shader/default_post_process.vert.glsl";
                                   dest])) w1)) ∧
    (∀ stereo_post use_post_gs shader,
       Stage.load_shader (defines w) [dest] stereo_post use_post_gs = inr shader →
       UpdatePreviousPipesStage.reload_shaders stereo_post use_post_gs s w =
         Ok (s, emit (CallTargetSetShader t shader) w1)).
Proof.
  intros Ht ts h is_array dest.
  exists (UpdatePreviousPipesStage.collect h 0 ts).1,
         (UpdatePreviousPipesStage.collect h 0 ts).2,
         (UpdatePreviousPipesStage.fragment_text
            (UpdatePreviousPipesStage.collect h 0 ts).1
            (UpdatePreviousPipesStage.collect h 0 ts).2).
  split; [apply collect_length|]. split.
  { intros i src dst Hi.
    destruct (collect_lookup h ts 0 i src dst Hi) as [H1 H2].
    rewrite H1, H2. unfold UpdatePreviousPipesStage.get_sampler_type, is_array.
    split; by repeat case_decide;
      rewrite ?bool_decide_eq_true_2, ?bool_decide_eq_false_2 by done. }
  split; [reflexivity|].
  assert (Hdefs : ∀ text, defines (UpdatePreviousPipesStage.write_shader dest text w)
                          = defines w).
  { intros text. unfold UpdatePreviousPipesStage.write_shader.
    by destruct (write_failure w dest). }
  intros w1. split; [|split; [|split]].
  - intros Hw. unfold w1, UpdatePreviousPipesStage.write_shader. by rewrite Hw.
  - intros what Hw. unfold w1, UpdatePreviousPipesStage.write_shader. by rewrite Hw.
  - intros use_post_gs. unfold UpdatePreviousPipesStage.reload_shaders. fold ts h.
    destruct (UpdatePreviousPipesStage.collect h 0 ts) as [us ls] eqn:E.
    simpl fst; simpl snd.
    change (Stage.load_shader _ [UpdatePreviousPipesStage.shader_dest]
              false use_post_gs)
      with (@inr Exception Shader
              (mkShader ["/$$rp/shader/default_post_process.vert.glsl"; dest])).
    by rewrite Ht.
  - intros stereo_post use_post_gs shader Hload.
    unfold UpdatePreviousPipesStage.reload_shaders. fold ts h.
    destruct (UpdatePreviousPipesStage.collect h 0 ts) as [us ls] eqn:E.
    simpl fst; simpl snd.
    unfold UpdatePreviousPipesStage.shader_dest. unfold dest in Hdefs, Hload.
    unfold Filename in *. rewrite Hdefs, Hload. by rewrite Ht.
Qed.

Lemma reload_shaders_generates_uniforms_witness :
  let h : TexPtr → Texture := fun p =>
    mkTexture "Pipe"
      (if decide (p = 1%nat) then TT_2d_texture_array else TT_2d_texture)
      64 64 1 in
  let t := "render_pipeline_internal:UpdatePreviousPipesStage:StorePreviousPipes" in
  let s := mkStage "UpdatePreviousPipesStage" true {[ t := mkTarget t ]}
             (UpdatePreviousPipesStage.mkMembers [(0, 1); (2, 3)]%nat (Some t)) in
  let w := mkWorld [] h (800, 600) ∅ ∅ (fun _ => None) in
  ∃ uniforms lines text,
    uniforms = ["sampler2D SrcTex0"; "writeonly image2DArray DestTex0";
                "sampler2D SrcTex1"; "writeonly image2D DestTex1"] ∧
    UpdatePreviousPipesStage.reload_shaders false false s w =
      Ok (s, emit (CallTargetSetShader t
                     (mkShader ["/$$rp/shader/default_post_process.vert.glsl";
                                "/$$rptemp/$$update_previous_pipes.frag.glsl"]))
               (UpdatePreviousPipesStage.write_shader
                  "/$$rptemp/$$update_previous_pipes.frag.glsl" text w)) ∧
    lines = (UpdatePreviousPipesStage.collect h 0 [(0, 1); (2, 3)]%nat).2.
Proof.
  intros h t s w.
  destruct (reload_shaders_generates_uniforms s w t eq_refl)
    as (us & ls & text & Hlen & Hlook & Htext & _ & _ & Hrun & _).
  exists us, (UpdatePreviousPipesStage.collect h 0 [(0, 1); (2, 3)]%nat).2, text.
  split; [|split; [exact (Hrun false) | reflexivity]].
  destruct (Hlook 0%nat 0%nat 1%nat eq_refl) as [H0 H1].
  destruct (Hlook 1%nat 2%nat 3%nat eq_refl) as [H2 H3].
  destruct us as [|u0 [|u1 [|u2 [|u3 [|u4 us]]]]]; simpl in Hlen; try lia.
  simpl in H0, H1, H2, H3.
  injection H0 as ->. injection H1 as ->. injection H2 as ->. injection H3 as ->.
  reflexivity.
Defined.

(** ** ProbeManager *)

Section ProbeManagerFacts.
Import ProbeManager.
Context {B : Type}.

Lemma add_probe_full (p : ProbePtr) (st : State B) :
  (_max_probes (manager st) ≤ length (_probes (manager st)))%nat →
  add_probe p st =
    (false, mkState (manager st) (probe_store st)
              (errors st ++ ["Cannot attach probe, out of slots!"])).
Proof.
  intros Hfull. unfold add_probe.
  destruct (Nat.leb_spec (_max_probes (manager st)) (length (_probes (manager st))));
    [done | lia].
Qed.

Lemma add_probe_free (p : ProbePtr) (st : State B) :
  (length (_probes (manager st)) < _max_probes (manager st))%nat →
  let r := add_probe p st in
  r.1 = true ∧
  manager r.2 = with_probes (_probes (manager st) ++ [p]) (manager st) ∧
  errors r.2 = errors st ∧
  probe_store r.2 p =
    mkProbe (-1) (Z.of_nat (length (_probes (manager st))))
      (bounds (probe_store st p)) ∧
  ∀ q, q ≠ p → probe_store r.2 q = probe_store st q.
Proof.
  intros Hfree. unfold add_probe.
  destruct (Nat.leb_spec (_max_probes (manager st)) (length (_probes (manager st))));
    [lia|].
  simpl. repeat split.
  - by rewrite !fn_lookup_insert.
  - intros q Hq. by rewrite !fn_lookup_insert_ne.
Qed.

(** The list never grows beyond [_max_probes]. *)
Lemma add_probes_bounded (ps : list ProbePtr) : ∀ st : State B,
  (length (_probes (manager st)) ≤ _max_probes (manager st))%nat →
  (length (_probes (manager (add_probes ps st).2))
     ≤ _max_probes (manager (add_probes ps st).2))%nat ∧
  _max_probes (manager (add_probes ps st).2) = _max_probes (manager st).
Proof.
  induction ps as [|p ps IH]; intros st Hle; simpl; [done|].
  destruct (add_probe p st) as [r st1] eqn:E.
  assert (H1 : (length (_probes (manager st1)) ≤ _max_probes (manager st1))%nat
               ∧ _max_probes (manager st1) = _max_probes (manager st)).
  { destruct (Nat.le_gt_cases (_max_probes (manager st))
                (length (_probes (manager st)))) as [Hfull | Hfree].
    - rewrite add_probe_full in E by done. injection E as <- <-. done.
    - destruct (add_probe_free p st Hfree) as (_ & Hm & _). rewrite E in Hm.
      simpl in Hm. rewrite Hm. simpl. rewrite length_app. simpl. split; [lia|done]. }
  destruct H1 as [H1 H2]. specialize (IH st1 H1).
  destruct (add_probes ps st1) as [rs st2]. simpl in *.
  destruct IH as [IH1 IH2]. split; [done | congruence].
Qed.

(** Adding distinct fresh probes keeps every index equal to the position. *)
Lemma add_probes_indexed (ps : list ProbePtr) : ∀ st : State B,
  NoDup (_probes (manager st) ++ ps) → indexed st →
  indexed (add_probes ps st).2.
Proof.
  induction ps as [|p ps IH]; intros st Hnd Hidx; simpl; [done|].
  destruct (add_probe p st) as [r st1] eqn:E.
  assert (H1 : NoDup (_probes (manager st1) ++ ps) ∧ indexed st1).
  { destruct (Nat.le_gt_cases (_max_probes (manager st))
                (length (_probes (manager st)))) as [Hfull | Hfree].
    - rewrite add_probe_full in E by done. injection E as <- <-. simpl. split.
      + apply NoDup_app in Hnd as (Ha & Hb & Hc). apply NoDup_app.
        apply NoDup_cons in Hc as [_ Hc]. repeat split; [done | | done].
        intros x Hx Hin. apply (Hb x Hx). by right.
      + done.
    - destruct (add_probe_free p st Hfree) as (_ & Hm & _ & Hp & Hq).
      rewrite E in Hm, Hp, Hq. simpl in Hm, Hp, Hq. split.
      + rewrite Hm. simpl. by rewrite <- app_assoc.
      + intros i q Hi. rewrite Hm in Hi. simpl in Hi.
        apply NoDup_app in Hnd as (Ha & Hb & Hc).
        destruct (decide (i < length (_probes (manager st)))%nat) as [Hlt | Hge].
        * rewrite lookup_app_l in Hi by done.
          assert (q ≠ p).
          { intros ->. apply (Hb p); [|left].
            apply list_elem_of_lookup. eauto. }
          rewrite Hq by done. by apply Hidx.
        * rewrite lookup_app_r in Hi by lia.
          destruct (i - length (_probes (manager st)))%nat as [|k] eqn:Ek;
            simpl in Hi; [|done].
          injection Hi as <-. rewrite Hp. simpl. f_equal. lia. }
  destruct H1 as [H1 H2]. specialize (IH st1 H1 H2).
  by destruct (add_probes ps st1) as [rs st2].
Qed.

End ProbeManagerFacts.

(** C9, as stated, fails: a probe added twice is stored twice and carries
    the index of its second slot, so the probe stored at position 0 has
    index 1. *)
Lemma add_probe_twice_breaks_index :
  let st0 : ProbeManager.State unit :=
    ProbeManager.mkState (ProbeManager.mkManager [] 4 128 4 None None None)
      (fun _ => ProbeManager.mkProbe 0 0 ()) [] in
  let st := (ProbeManager.add_probes [7; 7]%nat st0).2 in
  (ProbeManager.add_probes [7; 7]%nat st0).1 = [true; true] ∧
  ProbeManager._probes (ProbeManager.manager st) !! 0%nat = Some 7%nat ∧
  ProbeManager.index (ProbeManager.probe_store st 7%nat) ≠ 0.
Proof. repeat split. vm_compute. discriminate. Qed.

(** C9, amended.  [add_probe] returns false and leaves the probe list and
    the probes unchanged when the list already holds [_max_probes]
    probes or more; otherwise it sets the probe's [last_update] to -1 and
    its index to the previous length of the list, appends it and returns
    true.  After any run of [add_probe] calls the list does not exceed
    [_max_probes], and, provided the probes added are distinct objects
    not yet stored, every stored probe's index is its position. *)
Theorem add_probe_amended {B : Type} (st : ProbeManager.State B)
    (ps : list ProbeManager.ProbePtr) :
  let probes := ProbeManager._probes (ProbeManager.manager st) in
  let bound := ProbeManager._max_probes (ProbeManager.manager st) in
  (∀ p, (bound ≤ length probes)%nat →
     let r := ProbeManager.add_probe p st in
     r.1 = false ∧
     ProbeManager.manager r.2 = ProbeManager.manager st ∧
     ProbeManager.probe_store r.2 = ProbeManager.probe_store st) ∧
  (∀ p, (length probes < bound)%nat →
     let r := ProbeManager.add_probe p st in
     r.1 = true ∧
     ProbeManager._probes (ProbeManager.manager r.2) = probes ++ [p] ∧
     ProbeManager._max_probes (ProbeManager.manager r.2) = bound ∧
     ProbeManager.last_update (ProbeManager.probe_store r.2 p) = -1 ∧
     ProbeManager.index (ProbeManager.probe_store r.2 p)
       = Z.of_nat (length probes) ∧
     ProbeManager.bounds (ProbeManager.probe_store r.2 p)
       = ProbeManager.bounds (ProbeManager.probe_store st p) ∧
     ∀ q, q ≠ p →
       ProbeManager.probe_store r.2 q = ProbeManager.probe_store st q) ∧
  let st' := (ProbeManager.add_probes ps st).2 in
  ((length probes ≤ bound)%nat →
     (length (ProbeManager._probes (ProbeManager.manager st')) ≤ bound)%nat) ∧
  (NoDup (probes ++ ps) →
   (∀ i p, probes !! i = Some p →
      ProbeManager.index (ProbeManager.probe_store st p) = Z.of_nat i) →
   ∀ i p, ProbeManager._probes (ProbeManager.manager st') !! i = Some p →
      ProbeManager.index (ProbeManager.probe_store st' p) = Z.of_nat i).
Proof.
  intros probes bound. split; [|split; [|split]].
  - intros p Hfull r. unfold r. by rewrite add_probe_full.
  - intros p Hfree r.
    destruct (add_probe_free p st Hfree) as (Hr & Hm & _ & Hp & Hq).
    fold r in Hr, Hm, Hp, Hq. rewrite Hm, Hp. by repeat split.
  - intros Hle. destruct (add_probes_bounded ps st Hle) as [H1 H2].
    fold bound in H2. by rewrite <- H2.
  - intros Hnd Hidx. by apply add_probes_indexed.
Qed.

Lemma add_probe_amended_witness :
  let st0 : ProbeManager.State unit :=
    ProbeManager.mkState (ProbeManager.mkManager [] 2 128 4 None None None)
      (fun _ => ProbeManager.mkProbe 0 0 ()) [] in
  let st' := (ProbeManager.add_probes [5; 9; 3]%nat st0).2 in
  (length (ProbeManager._probes (ProbeManager.manager st')) ≤ 2)%nat ∧
  ∀ i p, ProbeManager._probes (ProbeManager.manager st') !! i = Some p →
     ProbeManager.index (ProbeManager.probe_store st' p) = Z.of_nat i.
Proof.
  intros st0 st'.
  destruct (add_probe_amended st0 [5; 9; 3]%nat) as (_ & _ & Hlen & Hidx).
  split.
  - apply Hlen. simpl. lia.
  - apply Hidx.
    + simpl. apply (bool_decide_unpack _). vm_compute. exact I.
    + intros i p Hi. simpl in Hi. by rewrite lookup_nil in Hi.
Defined.

Section FindProbeFacts.
Import ProbeManager.
Context {B : Type} (view_frustum_contains : B → Z)
        (store : ProbePtr → EnvironmentProbe B).

Local Abbreviation visible :=
  (ProbeManager.visible view_frustum_contains store).

Lemma visible_spec c :
  visible c = true ↔ view_frustum_contains (bounds (store c)) ≠ IF_no_intersection.
Proof.
  unfold visible. rewrite negb_true_iff. split.
  - intros Hf. by apply Z.eqb_neq.
  - intros Hne. by apply Z.eqb_neq.
Qed.

(** The first visible probe of a list sorted by age is an oldest one. *)
Lemma find_first_oldest (sorted : list ProbePtr) :
  StronglySorted (fun a b => older store b a = false) sorted →
  ∀ p, List.find visible sorted = Some p →
  ∀ q, q ∈ sorted → visible q = true →
    (last_update (store p) ≤ last_update (store q))%Z.
Proof.
  induction 1 as [|a l Hl IH Hall]; intros p Hfind q Hq Hv; simpl in Hfind.
  - by apply elem_of_nil in Hq.
  - destruct (visible a) eqn:Ea.
    + injection Hfind as <-.
      apply elem_of_cons in Hq as [-> | Hq]; [lia|].
      rewrite List.Forall_forall in Hall.
      specialize (Hall q (proj1 (list_elem_of_In _ _) Hq)).
      unfold older in Hall. apply Z.ltb_ge in Hall. done.
    + apply elem_of_cons in Hq as [-> | Hq]; [congruence|].
      by apply IH.
Qed.

End FindProbeFacts.

(** C10.  [find_probe_to_update] returns null exactly when the probe
    list is empty or no stored probe's bounds intersect the view frustum.
    Otherwise it returns a stored probe whose bounds intersect the
    frustum and whose [last_update] is the least among the stored probes
    that intersect it.  The manager, and with it the probe list, is left
    as it was.  [std::sort] may be any procedure whose result, on this
    list, is a rearrangement of the list in which no probe is followed by
    an older one. *)
Theorem find_probe_to_update_oldest_visible {B : Type}
    (view_frustum_contains : B → Z)
    (std_sort : (ProbeManager.ProbePtr → ProbeManager.ProbePtr → bool) →
                list ProbeManager.ProbePtr → list ProbeManager.ProbePtr)
    (st : ProbeManager.State B) :
  let probes := ProbeManager._probes (ProbeManager.manager st) in
  let store := ProbeManager.probe_store st in
  let sorted := std_sort (ProbeManager.older store) probes in
  let intersects p :=
    view_frustum_contains (ProbeManager.bounds (store p))
      ≠ ProbeManager.IF_no_intersection in
  sorted ≡ₚ probes →
  StronglySorted (fun a b => ProbeManager.older store b a = false) sorted →
  let r := ProbeManager.find_probe_to_update view_frustum_contains std_sort st in
  r.2 = st ∧
  (r.1 = None ↔ probes = [] ∨ ∀ p, p ∈ probes → ¬ intersects p) ∧
  ∀ p, r.1 = Some p →
    p ∈ probes ∧ intersects p ∧
    ∀ q, q ∈ probes → intersects q →
      (ProbeManager.last_update (store p)
         ≤ ProbeManager.last_update (store q))%Z.
Proof.
  intros probes store sorted intersects Hperm Hsorted r.
  assert (Hr : r = match probes with
                   | [] => (None, st)
                   | _ => (List.find
                             (ProbeManager.visible view_frustum_contains store)
                             sorted, st)
                   end) by reflexivity.
  clearbody r sorted probes. subst r.
  destruct probes as [|p0 rest].
  { simpl. split; [done|]. split; [by split; [left|] | done]. }
  set (probes := p0 :: rest) in *. simpl.
  split; [done|]. split; [split|].
  - intros Hnone. right. intros p Hp Hint.
    rewrite <- Hperm in Hp. apply list_elem_of_In in Hp.
    pose proof (List.find_none _ _ Hnone p Hp) as Hf. simpl in Hf.
    apply (visible_spec view_frustum_contains store) in Hint. congruence.
  - intros [Hnil | Hall]; [discriminate|].
    destruct (List.find _ sorted) as [p|] eqn:Ef; [|done]. exfalso.
    apply List.find_some in Ef as [Hin Hv].
    apply list_elem_of_In in Hin. rewrite Hperm in Hin.
    apply (Hall p Hin). by apply (visible_spec view_frustum_contains store).
  - intros p Hf. pose proof Hf as Hf'.
    apply List.find_some in Hf as [Hin Hv].
    apply list_elem_of_In in Hin. rewrite Hperm in Hin.
    split; [done|]. split; [by apply (visible_spec view_frustum_contains store)|].
    intros q Hq Hint.
    apply (find_first_oldest view_frustum_contains store sorted Hsorted p Hf').
    + by rewrite Hperm.
    + by apply (visible_spec view_frustum_contains store).
Qed.

Lemma find_probe_to_update_oldest_visible_witness :
  let store : ProbeManager.ProbePtr → ProbeManager.EnvironmentProbe Z :=
    fun p => ProbeManager.mkProbe (if decide (p = 1%nat) then -1
                                   else if decide (p = 2%nat) then 3 else 8)
               (Z.of_nat p) (Z.of_nat p) in
  let st := ProbeManager.mkState
              (ProbeManager.mkManager [0; 1; 2]%nat 3 128 4 None None None)
              store [] in
  let contains : Z → Z := fun b => if decide (b = 1) then 0 else 4 in
  let r := ProbeManager.find_probe_to_update contains
             ProbeManager.insertion_sort st in
  r.1 = Some 2%nat ∧ r.2 = st ∧
  ∀ q, q ∈ [0; 1; 2]%nat →
    contains (ProbeManager.bounds (store q)) ≠ ProbeManager.IF_no_intersection →
    (ProbeManager.last_update (store 2%nat)
       ≤ ProbeManager.last_update (store q))%Z.
Proof.
  intros store st contains r.
  destruct (find_probe_to_update_oldest_visible contains
              ProbeManager.insertion_sort st) as (Hst & _ & Hsome).
  - apply (bool_decide_unpack _). vm_compute. exact I.
  - vm_compute. repeat constructor.
  - split; [reflexivity|]. split; [exact Hst|].
    destruct (Hsome 2%nat eq_refl) as (_ & _ & Hmin). exact Hmin.
Defined.

(** ** Insertion sort is a behaviour of [std::sort] *)

Section InsertionSortFacts.
Import ProbeManager.
Context {B : Type} (store : ProbePtr → EnvironmentProbe B).

Lemma insert_sorted_perm (lt : ProbePtr → ProbePtr → bool) x l :
  insert_sorted lt x l ≡ₚ x :: l.
Proof.
  induction l as [|y l IH]; simpl; [done|].
  destruct (lt y x); [|done]. rewrite IH. apply Permutation_swap.
Qed.

Lemma insertion_sort_perm (lt : ProbePtr → ProbePtr → bool) l :
  insertion_sort lt l ≡ₚ l.
Proof.
  induction l as [|x l IH]; simpl; [done|].
  rewrite insert_sorted_perm. by rewrite IH.
Qed.

Lemma insert_sorted_sorted x l :
  StronglySorted (fun a b => older store b a = false) l →
  StronglySorted (fun a b => older store b a = false)
    (insert_sorted (older store) x l).
Proof.
  induction 1 as [|y l Hl IH Hall]; simpl.
  - repeat constructor.
  - destruct (older store y x) eqn:E.
    + constructor; [done|].
      apply List.Forall_forall. intros z Hz.
      apply list_elem_of_In in Hz. rewrite insert_sorted_perm in Hz.
      apply elem_of_cons in Hz as [-> | Hz].
      * unfold older in *. apply Z.ltb_lt in E. apply Z.ltb_ge. lia.
      * rewrite List.Forall_forall in Hall. apply Hall.
        by apply list_elem_of_In.
    + constructor; [by constructor|].
      constructor; [done|].
      apply List.Forall_forall. intros z Hz.
      rewrite List.Forall_forall in Hall. specialize (Hall z Hz).
      unfold older in *. apply Z.ltb_ge in E, Hall. apply Z.ltb_ge. lia.
Qed.

Lemma insertion_sort_sorted l :
  StronglySorted (fun a b => older store b a = false)
    (insertion_sort (older store) l).
Proof.
  induction l as [|x l IH]; simpl; [constructor|].
  by apply insert_sorted_sorted.
Qed.

End InsertionSortFacts.

(** ** Runs on concrete stages *)

Section Runs.
Import UpdatePreviousPipesStage Samples.

Example create_registers_target :
  match create stage0 world0 with
  | Ok (s, w) =>
      target_ (derived s) =
        Some "render_pipeline_internal:UpdatePreviousPipesStage:StorePreviousPipes" ∧
      Stage.target_names s =
        ["render_pipeline_internal:UpdatePreviousPipesStage:StorePreviousPipes"] ∧
      length (trace w) = 4%nat
  | _ => False
  end.
Proof. vm_compute. repeat split. Qed.

Example create_twice_is_refused :
  match create stage0 world0 with
  | Ok (s, w) =>
      (Stage.create_target "StorePreviousPipes" s w).1.1 = None ∧
      (Stage.create_target "StorePreviousPipes" s w).1.2 = s
  | _ => False
  end.
Proof. vm_compute. repeat split. Qed.

Example resize_after_create :
  match create stage0 world0 with
  | Ok (s, w) =>
      let r := Stage.handle_window_resize s w in
      x_size (textures r.2 1%nat) = 1280 ∧ y_size (textures r.2 1%nat) = 720 ∧
      last (trace r.2) =
        Some (CallTargetConsiderResize
                "render_pipeline_internal:UpdatePreviousPipesStage:StorePreviousPipes")
  | _ => False
  end.
Proof. vm_compute. repeat split. Qed.

Example shader_text_one_transfer :
  fragment_text (collect pipes 0 [(0, 1)]%nat).1 [] =
    "#version 430" +:+ nl +:+ nl
    +:+ "// Autogenerated, do not edit! Your changes will be lost." +:+ nl +:+ nl
    +:+ "uniform sampler2D SrcTex0;" +:+ nl
    +:+ "uniform writeonly image2D DestTex0;" +:+ nl
    +:+ nl +:+ "void main() {" +:+ nl
    +:+ "  const ivec2 coord_2d_int = ivec2(gl_FragCoord.xy);" +:+ nl
    +:+ "}" +:+ nl.
Proof. vm_compute. reflexivity. Qed.

Example shader_handle_two_args :
  Stage.get_shader_handle ∅ "/$$rp/shader/" ["a.vert.glsl"; "/$$rptemp/b.frag.glsl"]
    true false
  = inr (mkShader ["/$$rp/shader/a.vert.glsl"; "/$$rptemp/b.frag.glsl"]).
Proof. vm_compute. reflexivity. Qed.

Example shader_handle_four_args :
  Stage.get_shader_handle ∅ "/$$rp/shader/" ["a"; "b"; "c"; "d"] false false
  = inl (RuntimeError "args.size() <= 0 || args.size() > 3").
Proof. vm_compute. reflexivity. Qed.

Example shader_handle_stereo :
  Stage.get_shader_handle {[ "NVIDIA_STEREO_VIEW" := "0" ]} "/plugin"
    ["blur.frag.glsl"] true false
  = inr (mkShader ["/$$rp/shader/default_post_process_stereo.vert.glsl";
                   "/plugin/blur.frag.glsl";
                   "/$$rp/shader/default_post_process_stereo.geom.glsl"]).
Proof. vm_compute. reflexivity. Qed.

End Runs.

(** * Further properties of the stage layer *)

#[local] Existing Instance UpdatePreviousPipesStage.virtuals.

(** ** RenderStage: targets *)

Lemma append_inj_r (p a b : string) : p +:+ a = p +:+ b → a = b.
Proof.
  induction p as [|c p IH]; [done|].
  rewrite !append_cons. intros [= Hp]. by apply IH.
Qed.

(** For one stage, [create_target] maps different names to different
    fully qualified names. *)
Lemma target_name_inj {D : Type} `{StageVirtuals D} (s : RenderStage D) (a b : string) :
  Stage.target_name s a = Stage.target_name s b → a = b.
Proof.
  unfold Stage.target_name. intros Hab.
  apply append_inj_r in Hab. apply append_inj_r in Hab.
  apply append_inj_r in Hab. by apply append_inj_r in Hab.
Qed.

(** X1.  Removing the target [create_target] has just created gives back
    the stage as it was before the creation, and calls [remove] on that
    target.  Removing a target the stage holds erases its entry and no
    other, changes nothing else of the stage, and leaves the pointer
    dangling, so that a second [remove_target] with it has no defined
    behaviour.  Removing a target the stage does not hold, whatever its
    name and even if the stage holds a target of that name, still calls
    [remove] on it and erases nothing. *)
Theorem create_then_remove_target
    {D : Type} `{StageVirtuals D} (name : string) (s : RenderStage D) (w : World) :
  let tn := Stage.target_name s name in
  let r := Stage.create_target name s w in
  (targets_ s !! tn = None →
     r.1.1 = Some tn ∧
     Stage.remove_target (OwnTarget tn) r.1.2 r.2
       = Some (s, emit (CallTargetRemove (OwnTarget tn)) w)) ∧
  (∀ key, is_Some (targets_ s !! key) →
     ∃ s', Stage.remove_target (OwnTarget key) s w
             = Some (s', emit (CallTargetRemove (OwnTarget key)) w) ∧
           targets_ s' !! key = None ∧
           (∀ k, k ≠ key → targets_ s' !! k = targets_ s !! k) ∧
           stage_id_ s' = stage_id_ s ∧ active_ s' = active_ s ∧
           derived s' = derived s ∧
           ∀ w', Stage.remove_target (OwnTarget key) s' w' = None) ∧
  (∀ foreign,
     Stage.remove_target (ForeignTarget foreign) s w
       = Some (s, emit (CallTargetRemove (ForeignTarget foreign)) w)).
Proof.
  intros tn r. split; [|split].
  - intros Hfree. unfold r, Stage.create_target. fold tn. rewrite Hfree. simpl.
    split; [done|].
    unfold Stage.remove_target, Stage.with_targets. simpl.
    rewrite lookup_insert_eq. simpl.
    rewrite delete_insert_id by done. by destruct s.
  - intros key [t Ht].
    exists (Stage.with_targets (delete key (targets_ s)) s).
    unfold Stage.remove_target. rewrite Ht. simpl.
    split; [done|]. split; [apply lookup_delete_eq|].
    split; [intros k Hk; by apply lookup_delete_ne|].
    do 3 (split; [done|]). intros w'. by rewrite lookup_delete_eq.
  - done.
Qed.

(** X2.  On a stage whose plugin id does not change when a target is
    added, two [create_target] calls with different names that are both
    free succeed, return different targets, and leave the stage owning
    both. *)
Theorem create_two_targets
    {D : Type} `{StageVirtuals D} (a b : string) (s : RenderStage D) (w : World) :
  let r1 := Stage.create_target a s w in
  let r2 := Stage.create_target b r1.1.2 r1.2 in
  a ≠ b →
  get_plugin_id r1.1.2 = get_plugin_id s →
  targets_ s !! Stage.target_name s a = None →
  targets_ s !! Stage.target_name s b = None →
  r1.1.1 = Some (Stage.target_name s a) ∧
  r2.1.1 = Some (Stage.target_name s b) ∧
  r1.1.1 ≠ r2.1.1 ∧
  targets_ r2.1.2 !! Stage.target_name s a = Some (mkTarget (Stage.target_name s a)) ∧
  targets_ r2.1.2 !! Stage.target_name s b = Some (mkTarget (Stage.target_name s b)) ∧
  size (targets_ r2.1.2) = S (S (size (targets_ s))) ∧
  trace r2.2 = trace w.
Proof.
  intros r1 r2 Hab Hid Ha Hb.
  assert (Hne : Stage.target_name s a ≠ Stage.target_name s b).
  { intros Heq. by apply Hab, (target_name_inj s). }
  assert (Hr1 : r1 = (Some (Stage.target_name s a),
                      Stage.with_targets
                        (<[Stage.target_name s a := mkTarget (Stage.target_name s a)]>
                           (targets_ s)) s, w)).
  { unfold r1, Stage.create_target. by rewrite Ha. }
  assert (Hn2 : Stage.target_name r1.1.2 b = Stage.target_name s b).
  { unfold Stage.target_name. rewrite Hid. by rewrite Hr1. }
  assert (Hr2 : r2 = (Some (Stage.target_name s b),
                      Stage.with_targets
                        (<[Stage.target_name s b := mkTarget (Stage.target_name s b)]>
                           (targets_ r1.1.2)) r1.1.2, r1.2)).
  { unfold r2, Stage.create_target. rewrite Hn2.
    rewrite Hr1 at 1. simpl. rewrite lookup_insert_ne by done. by rewrite Hb. }
  rewrite Hr2. rewrite Hr1. simpl. repeat split.
  - congruence.
  - rewrite lookup_insert_ne by done. apply lookup_insert_eq.
  - apply lookup_insert_eq.
  - rewrite map_size_insert_None.
    + by rewrite map_size_insert_None.
    + by rewrite lookup_insert_ne.
Qed.

Lemma create_two_targets_witness :
  let s := Samples.stage0 in
  let w := Samples.world0 in
  let r1 := Stage.create_target "SkyAOCapture" s w in
  let r2 := Stage.create_target "ConvertDepth" r1.1.2 r1.2 in
  r1.1.1 ≠ r2.1.1 ∧ size (targets_ r2.1.2) = 2%nat.
Proof.
  intros s w r1 r2.
  destruct (create_two_targets "SkyAOCapture" "ConvertDepth" s w)
    as (_ & _ & Hne & _ & _ & Hsize & _); [done | done | done | done |].
  split; [exact Hne | exact Hsize].
Defined.

(** X5.  [set_shader_input] hands the input to every owned render target
    once, to nothing else, and leaves the stage as it was. *)
Theorem set_shader_input_reaches_targets
    {D : Type} `{StageVirtuals D} (input : string) (tex : TexPtr)
    (s : RenderStage D) (w : World) :
  let r := Stage.set_shader_input input tex s w in
  r.1 = s ∧
  ∃ calls, r.2 = emit_all calls w ∧ NoDup calls ∧
    ∀ c, c ∈ calls ↔
         ∃ name t, targets_ s !! name = Some t ∧
                   c = CallTargetSetShaderInput name input tex.
Proof.
  intros r. split; [done|].
  exists ((fun n => CallTargetSetShaderInput n input tex) <$> Stage.target_names s).
  split; [done|].
  assert (Inj (=) (=) (fun n => CallTargetSetShaderInput n input tex))
    by (by intros ?? [= ->]).
  by apply (per_target_calls (fun n => CallTargetSetShaderInput n input tex)).
Qed.

(** ** RenderStage: shader paths *)

Lemma resolve_path_mentions (base_path source : Filename) :
  Stage.resolve_path base_path source
    = if mentions_prefix source then source else join base_path source.
Proof. reflexivity. Qed.

Lemma under_dir_spec (dir path : Filename) :
  under_dir dir path = true ↔ ∃ rest, path = dir +:+ "/" +:+ rest.
Proof.
  unfold under_dir. rewrite prefix_spec.
  split; intros [rest ->]; exists rest.
  - induction dir as [|c dir IH]; [done|]. rewrite !append_cons. by f_equal.
  - induction dir as [|c dir IH]; [done|]. rewrite !append_cons. by f_equal.
Qed.

(** What [load_shader] makes of one argument. *)
Lemma resolve_path_shader_dir (source : Filename) :
  Stage.resolve_path "/$$rp/shader/" source
    = (if mentions_prefix source then source else "/$$rp/shader/" +:+ source) ∧
  (mentions_prefix source = false →
     under_dir "/$$rp/shader" (Stage.resolve_path "/$$rp/shader/" source) = true).
Proof.
  rewrite resolve_path_mentions. split; [done|]. intros ->.
  apply under_dir_spec. by exists source.
Qed.

(** The files of a shader [get_shader_handle] returns: the resolved
    arguments, with default shaders of /$$rp/shader/ before and behind. *)
Lemma get_shader_handle_shape
    (defs : gmap string string) (base_path : Filename) (args : list Filename)
    (stereo_post use_post_gs : bool) (shader : Shader) :
  Stage.get_shader_handle defs base_path args stereo_post use_post_gs = inr shader →
  ∃ front back,
    shader_paths shader = front ++ map (Stage.resolve_path base_path) args ++ back ∧
    (∀ p, p ∈ front → under_dir "/$$rp/shader" p = true) ∧
    (∀ p, p ∈ back → under_dir "/$$rp/shader" p = true).
Proof.
  unfold Stage.get_shader_handle.
  destruct ((length args <=? 0)%nat || (3 <? length args)%nat); [discriminate|].
  destruct (length args =? 1)%nat.
  - destruct stereo_post.
    + destruct (defs !! "NVIDIA_STEREO_VIEW") as [v|]; [|discriminate].
      destruct (bool_decide (v = "0") || use_post_gs); intros [= <-].
      * exists ["/$$rp/shader/default_post_process_stereo.vert.glsl"],
               ["/$$rp/shader/default_post_process_stereo.geom.glsl"].
        split; [done|].
        split; intros p Hp; apply list_elem_of_singleton in Hp as ->; reflexivity.
      * exists ["/$$rp/shader/default_post_process_stereo.vert.glsl"], [].
        split; [by rewrite app_nil_r|].
        split; intros p Hp; [|by apply elem_of_nil in Hp].
        apply list_elem_of_singleton in Hp as ->; reflexivity.
    + intros [= <-].
      exists ["/$$rp/shader/default_post_process.vert.glsl"], [].
      split; [by rewrite app_nil_r|].
      split; intros p Hp; [|by apply elem_of_nil in Hp].
      apply list_elem_of_singleton in Hp as ->; reflexivity.
  - intros [= <-]. exists [], []. split; [by rewrite app_nil_r|].
    split; intros p Hp; by apply elem_of_nil in Hp.
Qed.

(** X3.  Whenever [get_shader_handle] returns a shader, there were one to
    three arguments and the loader was handed two or three files.  With
    two or three arguments these are the arguments in their order, each
    kept or put under the base path.  With one argument the default
    vertex shader comes first, the stereo one when [stereo_post] is set,
    then the argument, kept or put under the base path; with
    [stereo_post] set the NVIDIA_STEREO_VIEW define exists, and the
    stereo geometry shader comes last exactly when that define is "0" or
    [use_post_gs] is set.  Three files are handed over only with three
    arguments or in this last case. *)
Theorem get_shader_handle_files
    (defs : gmap string string) (base_path : Filename) (args : list Filename)
    (stereo_post use_post_gs : bool) (shader : Shader) :
  Stage.get_shader_handle defs base_path args stereo_post use_post_gs = inr shader →
  let resolved := map (Stage.resolve_path base_path) args in
  (1 ≤ length args ≤ 3)%nat ∧
  (2 ≤ length (shader_paths shader) ≤ 3)%nat ∧
  (length args ≠ 1%nat → shader_paths shader = resolved) ∧
  (length args = 1%nat → stereo_post = false →
     shader_paths shader
       = "/$$rp/shader/default_post_process.vert.glsl" :: resolved) ∧
  (length args = 1%nat → stereo_post = true →
     ∃ v, defs !! "NVIDIA_STEREO_VIEW" = Some v ∧
          shader_paths shader
            = "/$$rp/shader/default_post_process_stereo.vert.glsl" :: resolved
              ++ (if bool_decide (v = "0") || use_post_gs
                  then ["/$$rp/shader/default_post_process_stereo.geom.glsl"]
                  else [])) ∧
  (length (shader_paths shader) = 3%nat →
     length args = 3%nat ∨
     (length args = 1%nat ∧ stereo_post = true ∧
      (defs !! "NVIDIA_STEREO_VIEW" = Some "0" ∨ use_post_gs = true))).
Proof.
  unfold Stage.get_shader_handle.
  destruct args as [|a [|b [|c [|d l]]]]; simpl; try discriminate.
  - destruct stereo_post.
    + destruct (defs !! "NVIDIA_STEREO_VIEW") as [v|] eqn:Ed; [|discriminate].
      destruct (bool_decide (v = "0")) eqn:Ev; simpl.
      * intros [= <-]. simpl. split; [lia|]. split; [lia|]. split; [done|].
        split; [done|]. split.
        -- intros _ _. exists v. by rewrite Ev.
        -- intros _. right. apply bool_decide_eq_true in Ev as ->. auto.
      * destruct use_post_gs; intros [= <-]; simpl;
          (split; [lia|]); (split; [lia|]); (split; [done|]); (split; [done|]);
          (split; [intros _ _; exists v; by rewrite Ev|]); [auto | lia].
    + intros [= <-]. simpl. split; [lia|]. split; [lia|]. split; [done|].
      split; [done|]. split; [done | lia].
  - intros [= <-]. simpl. split; [lia|]. split; [lia|]. split; [done|].
    split; [lia|]. split; [lia | lia].
  - intros [= <-]. simpl. split; [lia|]. split; [lia|]. split; [done|].
    split; [lia|]. split; [lia | auto].
Qed.

Lemma get_shader_handle_files_witness :
  let shader :=
    mkShader ["/$$rp/shader/default_post_process_stereo.vert.glsl";
              "/plugin/blur.frag.glsl";
              "/$$rp/shader/default_post_process_stereo.geom.glsl"] in
  (2 ≤ length (shader_paths shader) ≤ 3)%nat ∧
  ∃ v, ({[ "NVIDIA_STEREO_VIEW" := "1" ]} : gmap string string)
         !! "NVIDIA_STEREO_VIEW" = Some v.
Proof.
  intros shader.
  destruct (get_shader_handle_files {[ "NVIDIA_STEREO_VIEW" := "1" ]} "/plugin"
              ["blur.frag.glsl"] true true shader)
    as (_ & Hb & _ & _ & Hst & _).
  - vm_compute. reflexivity.
  - split; [exact Hb|].
    destruct (Hst eq_refl eq_refl) as [v [Hv _]]. exists v. exact Hv.
Defined.

(** X4.  Every argument of [load_shader] reaches the loader: unchanged
    when the name of one of the virtual directories /$$rpconfig,
    /$$rp/shader or /$$rptemp occurs somewhere in it, and put under
    /$$rp/shader/ otherwise.  So every file handed to the loader either
    lies under /$$rp/shader/ or is an argument in which such a name
    occurs, and when no argument mentions one of the names every file
    lies under /$$rp/shader/. *)
Theorem load_shader_paths_resolved
    (defs : gmap string string) (args : list Filename)
    (stereo_post use_post_gs : bool) (shader : Shader) :
  Stage.load_shader defs args stereo_post use_post_gs = inr shader →
  (∀ a, a ∈ args →
     (if mentions_prefix a then a else "/$$rp/shader/" +:+ a)
       ∈ shader_paths shader) ∧
  (∀ path, path ∈ shader_paths shader →
     under_dir "/$$rp/shader" path = true ∨
     (path ∈ args ∧ mentions_prefix path = true)) ∧
  ((∀ a, a ∈ args → mentions_prefix a = false) →
   ∀ path, path ∈ shader_paths shader → under_dir "/$$rp/shader" path = true).
Proof.
  intros Hload.
  assert (Hres : ∀ path,
            path ∈ map (Stage.resolve_path "/$$rp/shader/") args →
            under_dir "/$$rp/shader" path = true ∨
            (path ∈ args ∧ mentions_prefix path = true)).
  { intros path Hin. apply list_elem_of_In, in_map_iff in Hin as [a [<- Ha]].
    apply list_elem_of_In in Ha.
    destruct (resolve_path_shader_dir a) as [Heq Hno].
    destruct (mentions_prefix a) eqn:Em.
    - right. rewrite Heq. by rewrite Em.
    - left. by apply Hno. }
  assert (Hin : ∀ a, a ∈ args →
            (if mentions_prefix a then a else "/$$rp/shader/" +:+ a)
              ∈ map (Stage.resolve_path "/$$rp/shader/") args).
  { intros a Ha. rewrite <- (proj1 (resolve_path_shader_dir a)).
    apply list_elem_of_In, in_map. by apply list_elem_of_In. }
  assert (Hsub : map (Stage.resolve_path "/$$rp/shader/") args
                   ⊆ shader_paths shader ∧
                 ∀ path, path ∈ shader_paths shader →
                   under_dir "/$$rp/shader" path = true ∨
                   path ∈ map (Stage.resolve_path "/$$rp/shader/") args).
  { destruct (get_shader_handle_shape defs "/$$rp/shader/" args stereo_post
                use_post_gs shader Hload) as (front & back & -> & Hf & Hb).
    split; [intros x Hx; apply elem_of_app; right; apply elem_of_app; by left|].
    intros path Hp.
    apply elem_of_app in Hp as [Hp | Hp]; [left; by apply Hf|].
    apply elem_of_app in Hp as [Hp | Hp]; [by right | left; by apply Hb]. }
  destruct Hsub as [Hsub Hall].
  assert (Hcls : ∀ path, path ∈ shader_paths shader →
            under_dir "/$$rp/shader" path = true ∨
            (path ∈ args ∧ mentions_prefix path = true)).
  { intros path Hp. destruct (Hall path Hp) as [Hu | Hr]; [by left | by apply Hres]. }
  split; [intros a Ha; apply Hsub; by apply Hin|]. split; [exact Hcls|].
  intros Hnone path Hp. destruct (Hcls path Hp) as [Hu | [Ha Hm]]; [done|].
  rewrite (Hnone path Ha) in Hm. discriminate.
Qed.

(** The name of a virtual directory need only occur in an argument:
    /$$rp/shaderX is handed over as it is, though it lies under no
    virtual directory. *)
Lemma load_shader_paths_resolved_witness :
  let shader := mkShader ["/$$rp/shaderX"; "/$$rp/shader/blur.frag.glsl"] in
  "/$$rp/shaderX" ∈ shader_paths shader ∧
  "/$$rp/shader/blur.frag.glsl" ∈ shader_paths shader ∧
  forallb (fun dir => negb (under_dir dir "/$$rp/shaderX")) Stage.prefix_table
    = true.
Proof.
  intros shader.
  destruct (load_shader_paths_resolved ∅ ["/$$rp/shaderX"; "blur.frag.glsl"]
              false false shader) as (Hargs & _ & _).
  - vm_compute. reflexivity.
  - split; [|split].
    + apply (Hargs "/$$rp/shaderX"). left.
    + apply (Hargs "blur.frag.glsl"). right. left.
    + vm_compute. reflexivity.
Defined.

(** ** UpdatePreviousPipesStage: create and the generated shader *)

Section CreateFacts.
Import UpdatePreviousPipesStage.

Lemma create_inputs_length t ts : ∀ i,
  length (create_inputs t i ts) = (2 * length ts)%nat.
Proof.
  induction ts as [|[src dst] ts IH]; intros i; simpl; [done|].
  rewrite IH. lia.
Qed.

Lemma create_inputs_lookup t ts : ∀ i k src dst,
  ts !! k = Some (src, dst) →
  create_inputs t i ts !! (2 * k)%nat =
    Some (CallTargetSetShaderInput t ("SrcTex" +:+ pretty (i + k)%nat) src) ∧
  create_inputs t i ts !! (2 * k + 1)%nat =
    Some (CallTargetSetShaderInput t ("DestTex" +:+ pretty (i + k)%nat) dst).
Proof.
  induction ts as [|[s0 d0] ts IH]; intros i k src dst Hk; [done|].
  cbn [create_inputs]. destruct k as [|k]; simpl in Hk.
  - injection Hk as -> ->. replace (i + 0)%nat with i by lia. done.
  - destruct (IH (S i) k src dst Hk) as [H1 H2].
    replace (2 * S k)%nat with (S (S (2 * k))) by lia.
    replace (S (S (2 * k)) + 1)%nat with (S (S (2 * k + 1))) by lia.
    replace (i + S k)%nat with (S i + k)%nat by lia.
    split; [exact H1 | exact H2].
Qed.

End CreateFacts.

(** X6.  [create] on a stage that does not yet own a target named
    StorePreviousPipes registers that target, remembers it in [target_],
    prepares its buffer and then binds, for the i-th transfer, the
    source texture to SrcTexi and the destination texture to DestTexi,
    2n inputs in all.  On a stage that owns such a target already, so in
    particular when [create] is called a second time, [create_target]
    returns null and [create] dereferences it. *)
Theorem create_binds_transfers
    (s : RenderStage UpdatePreviousPipesStage.Members) (w : World) :
  let fq := "render_pipeline_internal:" +:+ stage_id_ s +:+ ":" +:+ "StorePreviousPipes" in
  let ts := UpdatePreviousPipesStage.transfers_ (derived s) in
  (targets_ s !! fq = None →
     ∃ s' w' inputs,
       UpdatePreviousPipesStage.create s w = Ok (s', w') ∧
       UpdatePreviousPipesStage.target_ (derived s') = Some fq ∧
       UpdatePreviousPipesStage.transfers_ (derived s') = ts ∧
       targets_ s' = <[fq := mkTarget fq]> (targets_ s) ∧
       trace w' = trace w ++
         [CallDebug "Creating previous pipes stage .."; CallTargetPrepareBuffer fq]
         ++ inputs ∧
       length inputs = (2 * length ts)%nat ∧
       (∀ i src dst, ts !! i = Some (src, dst) →
          inputs !! (2 * i)%nat =
            Some (CallTargetSetShaderInput fq ("SrcTex" +:+ pretty i) src) ∧
          inputs !! (2 * i + 1)%nat =
            Some (CallTargetSetShaderInput fq ("DestTex" +:+ pretty i) dst)) ∧
       UpdatePreviousPipesStage.create s' w' = NullDereference) ∧
  (is_Some (targets_ s !! fq) →
     UpdatePreviousPipesStage.create s w = NullDereference).
Proof.
  intros fq ts.
  assert (Hfq : ∀ s0 : RenderStage UpdatePreviousPipesStage.Members,
            stage_id_ s0 = stage_id_ s →
            Stage.target_name s0 "StorePreviousPipes" = fq).
  { intros s0 Hid. unfold Stage.target_name. rewrite Hid. reflexivity. }
  split.
  - intros Hfree.
    unfold UpdatePreviousPipesStage.create, Stage.create_target. cbv zeta.
    rewrite !Hfq by done. simpl. rewrite Hfree. fold ts.
    eexists _, _, (UpdatePreviousPipesStage.create_inputs fq 0 ts).
    split; [reflexivity|]. split; [reflexivity|]. split; [reflexivity|].
    split; [reflexivity|].
    split; [simpl; by rewrite <- !app_assoc|].
    split; [apply create_inputs_length|].
    split; [intros i src dst Hi; exact (create_inputs_lookup fq ts 0 i src dst Hi)|].
    unfold UpdatePreviousPipesStage.create, Stage.create_target. cbv zeta.
    rewrite !Hfq by done. simpl. by rewrite lookup_insert_eq.
  - intros [t Ht].
    unfold UpdatePreviousPipesStage.create, Stage.create_target. cbv zeta.
    rewrite !Hfq by done. simpl. by rewrite Ht.
Qed.

(** X7.  The texture inputs [create] binds and the uniforms
    [reload_shaders] declares agree: for the i-th transfer the uniform at
    position 2i is the sampler type of the source followed by the very
    name under which [create] binds the source texture, and the uniform
    at position 2i+1 is the image type of the destination followed by the
    name under which [create] binds the destination texture. *)
Theorem create_inputs_match_uniforms
    (h : TexPtr → Texture) (t : string) (ts : list (TexPtr * TexPtr))
    (i : nat) (src dst : TexPtr) :
  ts !! i = Some (src, dst) →
  ∃ src_name dst_name,
    UpdatePreviousPipesStage.create_inputs t 0 ts !! (2 * i)%nat =
      Some (CallTargetSetShaderInput t src_name src) ∧
    UpdatePreviousPipesStage.create_inputs t 0 ts !! (2 * i + 1)%nat =
      Some (CallTargetSetShaderInput t dst_name dst) ∧
    (UpdatePreviousPipesStage.collect h 0 ts).1 !! (2 * i)%nat =
      Some (UpdatePreviousPipesStage.get_sampler_type (h src) false
            +:+ " " +:+ src_name) ∧
    (UpdatePreviousPipesStage.collect h 0 ts).1 !! (2 * i + 1)%nat =
      Some (UpdatePreviousPipesStage.get_sampler_type (h dst) true
            +:+ " " +:+ dst_name) ∧
    src_name ≠ dst_name.
Proof.
  intros Hi. exists ("SrcTex" +:+ pretty i), ("DestTex" +:+ pretty i).
  destruct (create_inputs_lookup t ts 0 i src dst Hi) as [H1 H2].
  destruct (collect_lookup h ts 0 i src dst Hi) as [H3 H4].
  repeat split; done.
Qed.

Lemma create_inputs_match_uniforms_witness :
  ∃ src_name dst_name,
    UpdatePreviousPipesStage.create_inputs "t" 0 [(0, 1); (2, 3)]%nat !! 2%nat =
      Some (CallTargetSetShaderInput "t" src_name 2%nat) ∧
    UpdatePreviousPipesStage.create_inputs "t" 0 [(0, 1); (2, 3)]%nat !! 3%nat =
      Some (CallTargetSetShaderInput "t" dst_name 3%nat) ∧
    (UpdatePreviousPipesStage.collect Samples.pipes 0 [(0, 1); (2, 3)]%nat).1 !! 2%nat =
      Some (UpdatePreviousPipesStage.get_sampler_type (Samples.pipes 2%nat) false
            +:+ " " +:+ src_name) ∧
    (UpdatePreviousPipesStage.collect Samples.pipes 0 [(0, 1); (2, 3)]%nat).1 !! 3%nat =
      Some (UpdatePreviousPipesStage.get_sampler_type (Samples.pipes 3%nat) true
            +:+ " " +:+ dst_name) ∧
    src_name ≠ dst_name.
Proof.
  exact (create_inputs_match_uniforms Samples.pipes "t" [(0, 1); (2, 3)]%nat
           1 2%nat 3%nat eq_refl).
Defined.

(** ** UpdatePreviousPipesStage: resizing *)

(** X8.  However the transfers share textures, [set_dimensions] never
    changes the name or the type of a texture, gives every destination
    texture the global resolution as its x and y sizes, and changes the z
    size of no texture other than a 2D texture array. *)
Theorem set_dimensions_keeps
    (s : RenderStage UpdatePreviousPipesStage.Members) (w : World) :
  let ts := UpdatePreviousPipesStage.transfers_ (derived s) in
  let w' := (UpdatePreviousPipesStage.set_dimensions s w).2 in
  (∀ t, tex_name (textures w' t) = tex_name (textures w t) ∧
        texture_type (textures w' t) = texture_type (textures w t)) ∧
  (∀ src dst, (src, dst) ∈ ts →
        x_size (textures w' dst) = (resolution w).1 ∧
        y_size (textures w' dst) = (resolution w).2) ∧
  (∀ t, texture_type (textures w t) ≠ TT_2d_texture_array →
        z_size (textures w' t) = z_size (textures w t)).
Proof.
  intros ts w'. unfold w', UpdatePreviousPipesStage.set_dimensions. simpl. fold ts.
  destruct (fold_resize_keeps (resolution w) ts (textures w)) as (Hnt & Hxy & Hz).
  split; [done|]. split; [|done].
  intros src dst Hin. apply Hxy. apply list_elem_of_fmap. by exists (src, dst).
Qed.

(** X9.  When no texture is the destination of two transfers or both a
    source and a destination, running [set_dimensions] a second time at
    the same resolution changes no texture. *)
Theorem set_dimensions_idempotent
    (s : RenderStage UpdatePreviousPipesStage.Members) (w : World) :
  let ts := UpdatePreviousPipesStage.transfers_ (derived s) in
  NoDup ts.*2 →
  (∀ a b, a ∈ ts.*1 → b ∈ ts.*2 → a ≠ b) →
  let r1 := UpdatePreviousPipesStage.set_dimensions s w in
  let r2 := UpdatePreviousPipesStage.set_dimensions r1.1 r1.2 in
  r2.1 = s ∧ trace r2.2 = trace w ∧
  ∀ t, textures r2.2 t = textures r1.2 t.
Proof.
  intros ts Hnd Hdis r1 r2.
  unfold r2, r1, UpdatePreviousPipesStage.set_dimensions. simpl. fold ts.
  split; [done|]. split; [done|]. intros t.
  destruct (decide (t ∈ ts.*2)) as [Hin | Hnin].
  - apply list_elem_of_fmap in Hin as [[src dst] [-> Hin]]. simpl.
    rewrite (fold_resize_dest _ ts Hnd Hdis _ src dst) by done.
    assert (Hsrc : src ∉ ts.*2).
    { intros Hs. apply (Hdis src src); [|done|done].
      apply list_elem_of_fmap. by exists (src, dst). }
    rewrite (fold_resize_other _ ts (textures w) src) by done.
    rewrite (fold_resize_dest _ ts Hnd Hdis (textures w) src dst) by done.
    simpl. by case_decide.
  - by rewrite fold_resize_other.
Qed.

Lemma set_dimensions_idempotent_witness :
  let s := mkStage "UpdatePreviousPipesStage" true ∅
             (UpdatePreviousPipesStage.mkMembers [(0, 1); (2, 3)]%nat None) in
  let w := mkWorld [] Samples.pipes (800, 600) ∅ ∅ (fun _ => None) in
  let r1 := UpdatePreviousPipesStage.set_dimensions s w in
  let r2 := UpdatePreviousPipesStage.set_dimensions r1.1 r1.2 in
  textures r2.2 1%nat = textures r1.2 1%nat ∧
  textures r2.2 3%nat = textures r1.2 3%nat.
Proof.
  intros s w r1 r2.
  enough (Hsame : ∀ t, textures r2.2 t = textures r1.2 t)
    by (split; apply Hsame).
  destruct (set_dimensions_idempotent s w) as (_ & _ & Hsame).
  - simpl. apply (bool_decide_unpack _). vm_compute. exact I.
  - simpl. intros a b Ha Hb ->.
    repeat (apply elem_of_cons in Ha as [-> | Ha]);
      repeat (apply elem_of_cons in Hb as [Hb | Hb]); try discriminate;
      try (by apply elem_of_nil in Ha); by apply elem_of_nil in Hb.
  - exact Hsame.
Defined.

(** ** The hooks of the environment probe plugin *)

Section SelectionFacts.
Import ProbeManager.
Context {B : Type} (view_frustum_contains : B → Z)
        (std_sort : (ProbePtr → ProbePtr → bool) → list ProbePtr → list ProbePtr).
Hypothesis std_sort_perm : ∀ lt l, std_sort lt l ≡ₚ l.
Hypothesis std_sort_sorted : ∀ (h : ProbePtr → EnvironmentProbe B) l,
  StronglySorted (fun a b => older h b a = false) (std_sort (older h) l).

Lemma selection_none (st : State B) :
  (find_probe_to_update view_frustum_contains std_sort st).1 = None ↔
  ∀ p, p ∈ _probes (manager st) →
       visible view_frustum_contains (probe_store st) p = false.
Proof.
  unfold find_probe_to_update.
  destruct (_probes (manager st)) as [|p0 rest] eqn:E; simpl.
  - split; [|done]. intros _ p Hp. by apply elem_of_nil in Hp.
  - split.
    + intros Hnone p Hp. apply (List.find_none _ _ Hnone).
      apply list_elem_of_In. by rewrite std_sort_perm.
    + intros Hall. destruct (List.find _ _) as [p|] eqn:Ef; [|done].
      apply List.find_some in Ef as [Hin Hv].
      apply list_elem_of_In in Hin. rewrite std_sort_perm in Hin.
      rewrite (Hall p Hin) in Hv. discriminate.
Qed.

Lemma selection_some (st : State B) (p : ProbePtr) :
  (find_probe_to_update view_frustum_contains std_sort st).1 = Some p →
  p ∈ _probes (manager st) ∧
  visible view_frustum_contains (probe_store st) p = true ∧
  ∀ q, q ∈ _probes (manager st) →
       visible view_frustum_contains (probe_store st) q = true →
       (last_update (probe_store st p) ≤ last_update (probe_store st q))%Z.
Proof.
  unfold find_probe_to_update.
  destruct (_probes (manager st)) as [|p0 rest] eqn:E; simpl; [discriminate|].
  intros Hf. pose proof Hf as Hf'.
  apply List.find_some in Hf as [Hin Hv].
  apply list_elem_of_In in Hin. rewrite std_sort_perm in Hin.
  split; [done|]. split; [done|]. intros q Hq Hvq.
  apply (find_first_oldest view_frustum_contains (probe_store st) _
           (std_sort_sorted (probe_store st) (p0 :: rest)) p Hf').
  - by rewrite std_sort_perm.
  - done.
Qed.

End SelectionFacts.

Section HookFacts.
Import ProbeManager EnvProbesHooks.
Context {B Buffer Mat : Type}.
Variable is_modified : EnvironmentProbe B → bool.
Variable write_to_buffer : EnvironmentProbe B → Buffer → EnvironmentProbe B * Buffer.
Variable new_probe : EnvironmentProbe B.
Variable configure : Mat → EnvironmentProbe B → EnvironmentProbe B.

Lemma update_loop_other ps : ∀ h buf q,
  q ∉ ps → (update_loop is_modified write_to_buffer ps h buf).1 q = h q.
Proof.
  induction ps as [|p ps IH]; intros h buf q Hq; simpl; [done|].
  apply not_elem_of_cons in Hq as [Hne Hq].
  destruct (is_modified (h p)); [|by apply IH].
  destruct (write_to_buffer (h p) buf) as [written buf'].
  rewrite IH by done. by rewrite fn_lookup_insert_ne.
Qed.

Lemma update_loop_unmodified ps : ∀ h buf,
  (∀ p, p ∈ ps → is_modified (h p) = false) →
  update_loop is_modified write_to_buffer ps h buf = (h, buf).
Proof.
  induction ps as [|p ps IH]; intros h buf Hall; simpl; [done|].
  rewrite (Hall p) by left. apply IH. intros q Hq. apply Hall. by right.
Qed.

Lemma prepare_probe_manager (pl : Plugin B Buffer) (m : nat * Mat) :
  let st := probe_mgr_ pl in
  let pl' := prepare_probe new_probe configure pl m in
  next_probe pl' = S (next_probe pl) ∧
  removed_nodes pl' = removed_nodes pl ++ [m.1] ∧
  _max_probes (manager (probe_mgr_ pl')) = _max_probes (manager st) ∧
  ((length (_probes (manager st)) < _max_probes (manager st))%nat →
     _probes (manager (probe_mgr_ pl')) = _probes (manager st) ++ [next_probe pl] ∧
     errors (probe_mgr_ pl') = errors st) ∧
  ((_max_probes (manager st) ≤ length (_probes (manager st)))%nat →
     _probes (manager (probe_mgr_ pl')) = _probes (manager st) ∧
     length (errors (probe_mgr_ pl')) = S (length (errors st))).
Proof.
  intros st pl'. unfold pl', prepare_probe, add_probe. simpl. fold st.
  destruct (Nat.leb_spec (_max_probes (manager st)) (length (_probes (manager st))));
    simpl; repeat split; try done; try lia.
  rewrite length_app. simpl. lia.
Qed.

End HookFacts.

(** X10.  [ProbeManager::update] never changes the list of probes or a
    probe that is not in the list, and when no stored probe is modified it
    changes neither a probe nor the dataset buffer. *)
Theorem probe_manager_update_writes_modified {B Buffer : Type}
    (is_modified : ProbeManager.EnvironmentProbe B → bool)
    (write_to_buffer : ProbeManager.EnvironmentProbe B → Buffer →
                       ProbeManager.EnvironmentProbe B * Buffer)
    (st : ProbeManager.State B) (buffer : Buffer) :
  let r := EnvProbesHooks.update is_modified write_to_buffer st buffer in
  ProbeManager.manager r.1 = ProbeManager.manager st ∧
  ProbeManager.errors r.1 = ProbeManager.errors st ∧
  (∀ q, q ∉ ProbeManager._probes (ProbeManager.manager st) →
        ProbeManager.probe_store r.1 q = ProbeManager.probe_store st q) ∧
  ((∀ p, p ∈ ProbeManager._probes (ProbeManager.manager st) →
         is_modified (ProbeManager.probe_store st p) = false) →
   r = (st, buffer)).
Proof.
  intros r. unfold r, EnvProbesHooks.update.
  split; [|split; [|split]].
  - by destruct (EnvProbesHooks.update_loop _ _ _ _ _).
  - by destruct (EnvProbesHooks.update_loop _ _ _ _ _).
  - intros q Hq.
    pose proof (update_loop_other is_modified write_to_buffer _
                  (ProbeManager.probe_store st) buffer q Hq) as Ho.
    by destruct (EnvProbesHooks.update_loop _ _ _ _ _).
  - intros Hall. rewrite update_loop_unmodified by done. by destruct st.
Qed.

Section PrepareSceneFacts.
Import ProbeManager EnvProbesHooks.
Context {B Buffer Mat : Type}.
Variable new_probe : EnvironmentProbe B.
Variable configure : Mat → EnvironmentProbe B → EnvironmentProbe B.

Lemma on_prepare_scene_run (ep_npc : list (nat * Mat)) : ∀ pl : Plugin B Buffer,
  _max_probes (manager (probe_mgr_ (on_prepare_scene new_probe configure ep_npc pl)))
    = _max_probes (manager (probe_mgr_ pl)) ∧
  next_probe (on_prepare_scene new_probe configure ep_npc pl)
    = (next_probe pl + length ep_npc)%nat ∧
  removed_nodes (on_prepare_scene new_probe configure ep_npc pl)
    = removed_nodes pl ++ ep_npc.*1 ∧
  _probes (manager (probe_mgr_ (on_prepare_scene new_probe configure ep_npc pl)))
    = _probes (manager (probe_mgr_ pl)) ++
      seq (next_probe pl)
        (length ep_npc `min` (_max_probes (manager (probe_mgr_ pl))
                              - length (_probes (manager (probe_mgr_ pl))))) ∧
  length (errors (probe_mgr_ (on_prepare_scene new_probe configure ep_npc pl)))
    = (length (errors (probe_mgr_ pl)) +
       (length ep_npc - (_max_probes (manager (probe_mgr_ pl))
                         - length (_probes (manager (probe_mgr_ pl))))))%nat.
Proof.
  induction ep_npc as [|m ms IH]; intros pl.
  - simpl. rewrite !app_nil_r, Nat.add_0_r. repeat split; lia.
  - change (on_prepare_scene new_probe configure (m :: ms) pl)
      with (on_prepare_scene new_probe configure ms
              (prepare_probe new_probe configure pl m)).
    destruct (IH (prepare_probe new_probe configure pl m))
      as (Hmx & Hn & Hr & Hp & He).
    destruct (prepare_probe_manager new_probe configure pl m)
      as (Hnext & Hrem & Hmax & Hfree & Hfull).
    rewrite Hmx, Hn, Hr, Hp, He, Hmax, Hnext, Hrem. clear Hmx Hn Hr Hp He.
    set (n := length (_probes (manager (probe_mgr_ pl)))) in *.
    set (mx := _max_probes (manager (probe_mgr_ pl))) in *.
    destruct (Nat.le_gt_cases mx n) as [Hle | Hlt].
    + destruct (Hfull Hle) as [-> ->]. fold n.
      assert (Hk : (mx - n = 0)%nat) by lia. rewrite Hk, !Nat.min_0_r.
      simpl. rewrite <- app_assoc. repeat split; try done; lia.
    + destruct (Hfree Hlt) as [-> ->]. rewrite length_app. fold n.
      assert (Hk : (length (m :: ms) `min` (mx - n)
                    = S (length ms `min` (mx - (n + length [next_probe pl]))))%nat)
        by (cbn [length]; lia).
      rewrite Hk. cbn [length seq]. rewrite <- !app_assoc. cbn [app].
      repeat split; try done; lia.
Qed.

End PrepareSceneFacts.

(** X11.  [on_prepare_scene] makes one new probe per matched node and
    removes every matched node from the scene.  The probes are stored in
    the order of the matches until the manager is full; each further one
    is refused with one error message.  If no stored probe lies at or
    beyond the next free address and none is stored twice, none is stored
    twice afterwards. *)
Theorem on_prepare_scene_fills_slots {B Buffer Mat : Type}
    (new_probe : ProbeManager.EnvironmentProbe B)
    (configure : Mat → ProbeManager.EnvironmentProbe B →
                 ProbeManager.EnvironmentProbe B)
    (ep_npc : list (nat * Mat)) (pl : EnvProbesHooks.Plugin B Buffer) :
  let st := EnvProbesHooks.probe_mgr_ pl in
  let probes := ProbeManager._probes (ProbeManager.manager st) in
  let free := (ProbeManager._max_probes (ProbeManager.manager st)
               - length probes)%nat in
  let pl' := EnvProbesHooks.on_prepare_scene new_probe configure ep_npc pl in
  let st' := EnvProbesHooks.probe_mgr_ pl' in
  let probes' := ProbeManager._probes (ProbeManager.manager st') in
  probes' = probes ++ seq (EnvProbesHooks.next_probe pl)
                        (length ep_npc `min` free) ∧
  EnvProbesHooks.next_probe pl'
    = (EnvProbesHooks.next_probe pl + length ep_npc)%nat ∧
  EnvProbesHooks.removed_nodes pl'
    = EnvProbesHooks.removed_nodes pl ++ ep_npc.*1 ∧
  length (ProbeManager.errors st')
    = (length (ProbeManager.errors st) + (length ep_npc - free))%nat ∧
  ((∀ p, p ∈ probes → (p < EnvProbesHooks.next_probe pl)%nat) →
   NoDup probes → NoDup probes').
Proof.
  intros st probes free pl' st' probes'.
  destruct (on_prepare_scene_run new_probe configure ep_npc pl)
    as (Hmx & Hn & Hr & Hp & He).
  split; [exact Hp|]. split; [exact Hn|]. split; [exact Hr|]. split; [exact He|].
  intros Hbelow Hnd. unfold probes', st', pl'. rewrite Hp.
  apply NoDup_app. split; [done|]. split; [|apply NoDup_seq].
  intros x Hx Hs. apply elem_of_seq in Hs. specialize (Hbelow x Hx). lia.
Qed.

Lemma selection_some_visible {B : Type} (view_frustum_contains : B → Z)
    (std_sort : (ProbeManager.ProbePtr → ProbeManager.ProbePtr → bool) →
                list ProbeManager.ProbePtr → list ProbeManager.ProbePtr)
    (st : ProbeManager.State B) (p : ProbeManager.ProbePtr) :
  (∀ lt l, std_sort lt l ≡ₚ l) →
  (ProbeManager.find_probe_to_update view_frustum_contains std_sort st).1 = Some p →
  p ∈ ProbeManager._probes (ProbeManager.manager st) ∧
  ProbeManager.visible view_frustum_contains (ProbeManager.probe_store st) p = true.
Proof.
  intros Hperm. unfold ProbeManager.find_probe_to_update.
  destruct (ProbeManager._probes (ProbeManager.manager st)) as [|p0 rest] eqn:E;
    simpl; [discriminate|].
  intros Hf. apply List.find_some in Hf as [Hin Hv].
  apply list_elem_of_In in Hin. by rewrite Hperm in Hin.
Qed.

Lemma set_active_flag {D : Type} (b : bool) (s : RenderStage D) (w : World) :
  active_ (Stage.set_active b s w).1 = b ∧
  derived (Stage.set_active b s w).1 = derived s.
Proof. unfold Stage.set_active. by destruct (active_ s) eqn:E, b; simpl. Qed.

(** X12.  After a scheduled [on_pre_render_update] the capture stage is
    active exactly when the bounds of some stored probe intersect the
    view frustum; the probes are looked at as [ProbeManager::update] left
    them.  The list of stored probes is never changed, and an
    unscheduled call changes nothing. *)
Theorem capture_stage_active_iff_probe_visible {B Buffer : Type}
    (is_modified : ProbeManager.EnvironmentProbe B → bool)
    (write_to_buffer : ProbeManager.EnvironmentProbe B → Buffer →
                       ProbeManager.EnvironmentProbe B * Buffer)
    (get_num_probes : ProbeManager.Manager → Z)
    (view_frustum_contains : B → Z)
    (std_sort : (ProbeManager.ProbePtr → ProbeManager.ProbePtr → bool) →
                list ProbeManager.ProbePtr → list ProbeManager.ProbePtr)
    (frame_count : Z) (pssm : bool) (pl : EnvProbesHooks.Plugin B Buffer) :
  (∀ lt l, std_sort lt l ≡ₚ l) →
  let run scheduled :=
    EnvProbesHooks.on_pre_render_update is_modified write_to_buffer
      get_num_probes view_frustum_contains std_sort scheduled frame_count pssm pl in
  let updated :=
    (EnvProbesHooks.update is_modified write_to_buffer
       (EnvProbesHooks.probe_mgr_ pl) (EnvProbesHooks.dataset pl)).1 in
  let probes :=
    ProbeManager._probes (ProbeManager.manager (EnvProbesHooks.probe_mgr_ pl)) in
  (active_ (EnvProbesHooks.capture_stage_ (run true)) = true ↔
     ∃ p, p ∈ probes ∧
          view_frustum_contains
            (ProbeManager.bounds (ProbeManager.probe_store updated p))
          ≠ ProbeManager.IF_no_intersection) ∧
  ProbeManager._probes
    (ProbeManager.manager (EnvProbesHooks.probe_mgr_ (run true))) = probes ∧
  run false = pl.
Proof.
  intros Hperm run updated probes.
  assert (Hmgr : ProbeManager.manager updated
                 = ProbeManager.manager (EnvProbesHooks.probe_mgr_ pl)).
  { unfold updated, EnvProbesHooks.update.
    by destruct (EnvProbesHooks.update_loop _ _ _ _ _). }
  pose proof (selection_none view_frustum_contains std_sort Hperm updated) as Hnone.
  rewrite Hmgr in Hnone. fold probes in Hnone.
  unfold run, EnvProbesHooks.on_pre_render_update.
  destruct (EnvProbesHooks.update is_modified write_to_buffer
              (EnvProbesHooks.probe_mgr_ pl) (EnvProbesHooks.dataset pl))
    as [st buffer] eqn:Eu.
  simpl in updated. subst updated.
  destruct (ProbeManager.find_probe_to_update view_frustum_contains std_sort st).1
    as [p|] eqn:Ef.
  - destruct (Stage.set_active true _ _) as [capture w] eqn:Ea.
    pose proof (set_active_flag true (EnvProbesHooks.capture_stage_ pl)
                  (EnvProbesHooks.engine pl)) as [Hflag _].
    rewrite Ea in Hflag. simpl in Hflag. simpl. split; [|by rewrite Hmgr].
    split; [|done]. intros _.
    destruct (selection_some_visible view_frustum_contains std_sort st p Hperm Ef)
      as [Hin Hv].
    rewrite Hmgr in Hin. exists p. split; [done|].
    by apply (visible_spec view_frustum_contains (ProbeManager.probe_store st)).
  - destruct (Stage.set_active false _ _) as [capture w] eqn:Ea.
    pose proof (set_active_flag false (EnvProbesHooks.capture_stage_ pl)
                  (EnvProbesHooks.engine pl)) as [Hflag _].
    rewrite Ea in Hflag. simpl in Hflag. simpl. split; [|by rewrite Hmgr].
    split; [by rewrite Hflag|]. intros [q [Hq Hv]]. exfalso.
    apply (visible_spec view_frustum_contains (ProbeManager.probe_store st)) in Hv.
    rewrite (proj1 Hnone eq_refl q Hq) in Hv. discriminate.
Qed.

Section RenderUpdateFacts.
Import ProbeManager EnvProbesHooks.
Context {B Buffer : Type}.
Variable is_modified : EnvironmentProbe B → bool.
Variable write_to_buffer : EnvironmentProbe B → Buffer → EnvironmentProbe B * Buffer.
Variable get_num_probes : Manager → Z.
Variable std_sort : (ProbePtr → ProbePtr → bool) → list ProbePtr → list ProbePtr.

(** When [write_to_buffer] changes neither the stamp nor the bounds of
    the probe it writes, [ProbeManager::update] changes neither. *)
Lemma update_loop_keeps
    (Hkeep : ∀ e buf, last_update (write_to_buffer e buf).1 = last_update e ∧
                      bounds (write_to_buffer e buf).1 = bounds e)
    ps : ∀ h buf x,
  last_update ((update_loop is_modified write_to_buffer ps h buf).1 x)
    = last_update (h x) ∧
  bounds ((update_loop is_modified write_to_buffer ps h buf).1 x) = bounds (h x).
Proof.
  induction ps as [|p ps IH]; intros h buf x; simpl; [done|].
  destruct (is_modified (h p)); [|apply IH].
  pose proof (Hkeep (h p) buf) as Hk.
  destruct (write_to_buffer (h p) buf) as [written buf'].
  destruct (IH (<[p := written]> h) buf' x) as [-> ->].
  destruct (decide (x = p)) as [-> | Hne].
  - by rewrite fn_lookup_insert.
  - by rewrite fn_lookup_insert_ne.
Qed.

Lemma update_keeps
    (Hkeep : ∀ e buf, last_update (write_to_buffer e buf).1 = last_update e ∧
                      bounds (write_to_buffer e buf).1 = bounds e)
    (st : State B) (buf : Buffer) :
  let u := (update is_modified write_to_buffer st buf).1 in
  manager u = manager st ∧
  ∀ x, last_update (probe_store u x) = last_update (probe_store st x) ∧
       bounds (probe_store u x) = bounds (probe_store st x).
Proof.
  intros u. unfold u, update.
  pose proof (update_loop_keeps Hkeep (_probes (manager st)) (probe_store st) buf)
    as Hk.
  destruct (update_loop _ _ _ _ _) as [h buf']. done.
Qed.

(** A scheduled update whose selection is [p]. *)
Lemma on_pre_render_update_selected (view_frustum_contains : B → Z)
    (frame_count : Z) (pssm : bool) (pl : Plugin B Buffer) (p : ProbePtr) :
  let u := (update is_modified write_to_buffer (probe_mgr_ pl) (dataset pl)).1 in
  let pl' := on_pre_render_update is_modified write_to_buffer get_num_probes
               view_frustum_contains std_sort true frame_count pssm pl in
  (find_probe_to_update view_frustum_contains std_sort u).1 = Some p →
  probe_mgr_ pl' =
    mkState (manager u)
      (<[p := set_last_update frame_count (probe_store u p)]> (probe_store u))
      (errors u) ∧
  probe_ (derived (capture_stage_ pl')) = Some p.
Proof.
  intros u pl'. unfold pl', u, on_pre_render_update.
  destruct (update is_modified write_to_buffer (probe_mgr_ pl) (dataset pl))
    as [st buffer].
  cbn [fst]. intros ->. by destruct (Stage.set_active true _ _).
Qed.

End RenderUpdateFacts.

(** X13.  Provided [write_to_buffer] changes neither the [last_update]
    stamp nor the bounds of the probe it writes, a probe that has just
    been selected is stamped with the frame count and does not come up
    again while another stored probe with an older stamp intersects the
    frustum: if the scheduled update at frame [f1] selects [p] among the
    probes as [ProbeManager::update] left them, and [q] is another
    stored probe with [last_update] below [f1] whose bounds intersect
    the frustum of the next scheduled update, then that update selects a
    probe other than [p], no younger than [q].  Probes may be flagged
    modified and written to the dataset at both updates. *)
Theorem updated_probe_waits_its_turn {B Buffer : Type}
    (is_modified : ProbeManager.EnvironmentProbe B → bool)
    (write_to_buffer : ProbeManager.EnvironmentProbe B → Buffer →
                       ProbeManager.EnvironmentProbe B * Buffer)
    (get_num_probes : ProbeManager.Manager → Z)
    (frustum1 frustum2 : B → Z)
    (std_sort : (ProbeManager.ProbePtr → ProbeManager.ProbePtr → bool) →
                list ProbeManager.ProbePtr → list ProbeManager.ProbePtr)
    (f1 f2 : Z) (pssm1 pssm2 : bool) (pl : EnvProbesHooks.Plugin B Buffer)
    (p q : ProbeManager.ProbePtr) :
  let st := EnvProbesHooks.probe_mgr_ pl in
  let probes := ProbeManager._probes (ProbeManager.manager st) in
  let updated := (EnvProbesHooks.update is_modified write_to_buffer st
                    (EnvProbesHooks.dataset pl)).1 in
  let pl1 := EnvProbesHooks.on_pre_render_update is_modified write_to_buffer
               get_num_probes frustum1 std_sort true f1 pssm1 pl in
  let st1 := EnvProbesHooks.probe_mgr_ pl1 in
  let pl2 := EnvProbesHooks.on_pre_render_update is_modified write_to_buffer
               get_num_probes frustum2 std_sort true f2 pssm2 pl1 in
  (∀ lt l, std_sort lt l ≡ₚ l) →
  (∀ (h : ProbeManager.ProbePtr → ProbeManager.EnvironmentProbe B) l,
     StronglySorted (fun a b => ProbeManager.older h b a = false)
       (std_sort (ProbeManager.older h) l)) →
  (∀ e buf,
     ProbeManager.last_update (write_to_buffer e buf).1 = ProbeManager.last_update e ∧
     ProbeManager.bounds (write_to_buffer e buf).1 = ProbeManager.bounds e) →
  (ProbeManager.find_probe_to_update frustum1 std_sort updated).1 = Some p →
  q ∈ probes → q ≠ p →
  frustum2 (ProbeManager.bounds (ProbeManager.probe_store st q))
    ≠ ProbeManager.IF_no_intersection →
  (ProbeManager.last_update (ProbeManager.probe_store st q) < f1)%Z →
  ProbeManager.last_update (ProbeManager.probe_store st1 p) = f1 ∧
  EnvProbesHooks.probe_ (derived (EnvProbesHooks.capture_stage_ pl1)) = Some p ∧
  ∃ p', EnvProbesHooks.probe_ (derived (EnvProbesHooks.capture_stage_ pl2)) = Some p' ∧
        p' ≠ p ∧ p' ∈ probes ∧
        (ProbeManager.last_update (ProbeManager.probe_store st1 p')
           ≤ ProbeManager.last_update (ProbeManager.probe_store st q))%Z.
Proof.
  intros st probes updated pl1 st1 pl2 Hperm Hsorted Hkeep Hsel Hq Hqp Hvis Hold.
  destruct (update_keeps is_modified write_to_buffer Hkeep st
              (EnvProbesHooks.dataset pl)) as [Hmgr Hu].
  fold updated in Hmgr, Hu.
  destruct (on_pre_render_update_selected is_modified write_to_buffer
              get_num_probes std_sort frustum1 f1 pssm1 pl p Hsel)
    as [Hst1 Hprobe1].
  fold st updated pl1 st1 in Hst1, Hprobe1.
  assert (Hp1 : ProbeManager.last_update (ProbeManager.probe_store st1 p) = f1).
  { rewrite Hst1. cbn [ProbeManager.probe_store]. by rewrite fn_lookup_insert. }
  assert (Hq1 : ProbeManager.probe_store st1 q = ProbeManager.probe_store updated q).
  { rewrite Hst1. cbn [ProbeManager.probe_store]. by apply fn_lookup_insert_ne. }
  assert (Hprobes1 : ProbeManager._probes (ProbeManager.manager st1) = probes).
  { rewrite Hst1. cbn [ProbeManager.manager]. by rewrite Hmgr. }
  split; [exact Hp1|]. split; [exact Hprobe1|].
  destruct (update_keeps is_modified write_to_buffer Hkeep st1
              (EnvProbesHooks.dataset pl1)) as [Hmgr2 Hu2].
  set (updated2 := (EnvProbesHooks.update is_modified write_to_buffer st1
                      (EnvProbesHooks.dataset pl1)).1) in *.
  assert (Hprobes2 : ProbeManager._probes (ProbeManager.manager updated2) = probes)
    by (by rewrite Hmgr2).
  assert (Hq2 : ProbeManager.last_update (ProbeManager.probe_store updated2 q)
                = ProbeManager.last_update (ProbeManager.probe_store st q) ∧
                ProbeManager.bounds (ProbeManager.probe_store updated2 q)
                = ProbeManager.bounds (ProbeManager.probe_store st q)).
  { destruct (Hu2 q) as [-> ->]. rewrite Hq1. apply Hu. }
  destruct Hq2 as [Hq2l Hq2b].
  assert (Hqv : ProbeManager.visible frustum2 (ProbeManager.probe_store updated2) q
                = true).
  { apply (visible_spec frustum2 (ProbeManager.probe_store updated2)).
    by rewrite Hq2b. }
  destruct (ProbeManager.find_probe_to_update frustum2 std_sort updated2).1
    as [p'|] eqn:Esel2.
  - destruct (selection_some frustum2 std_sort Hperm Hsorted updated2 p' Esel2)
      as (Hin & _ & Hmin).
    rewrite Hprobes2 in Hin, Hmin. specialize (Hmin q Hq Hqv).
    rewrite Hq2l in Hmin. rewrite (proj1 (Hu2 p')) in Hmin.
    destruct (on_pre_render_update_selected is_modified write_to_buffer
                get_num_probes std_sort frustum2 f2 pssm2 pl1 p' Esel2)
      as [_ Hprobe2].
    exists p'. split; [exact Hprobe2|]. split; [|done].
    intros ->. rewrite Hp1 in Hmin. lia.
  - exfalso.
    pose proof (proj1 (selection_none frustum2 std_sort Hperm updated2) Esel2 q)
      as Hn.
    rewrite Hprobes2 in Hn. rewrite (Hn Hq) in Hqv. discriminate.
Qed.

(** Two probes, both flagged modified and written to the dataset at each
    update; probe 0 carries the older stamp and is selected first, probe
    1 at the next update. *)
Lemma updated_probe_waits_its_turn_witness :
  let store : ProbeManager.ProbePtr → ProbeManager.EnvironmentProbe Z :=
    fun p => ProbeManager.mkProbe (if decide (p = 0%nat) then 3 else 5)
               (Z.of_nat p) (Z.of_nat p) in
  let pl : EnvProbesHooks.Plugin Z (list Z) :=
    EnvProbesHooks.mkPlugin
      (ProbeManager.mkState
         (ProbeManager.mkManager [0; 1]%nat 4 128 4 None None None) store [])
      [] 0
      (mkStage "EnvironmentCaptureStage" false ∅
         (EnvProbesHooks.mkCaptureMembers None))
      Samples.world0 2%nat [] [] in
  let run f pl :=
    EnvProbesHooks.on_pre_render_update (fun _ => true)
      (fun e b => (e, b ++ [ProbeManager.index e]))
      (fun m => Z.of_nat (length (ProbeManager._probes m))) (fun _ => 1)
      ProbeManager.insertion_sort true f false pl in
  EnvProbesHooks.probe_ (derived (EnvProbesHooks.capture_stage_ (run 10 pl)))
    = Some 0%nat ∧
  EnvProbesHooks.dataset (run 10 pl) = [0; 1] ∧
  ∃ p', EnvProbesHooks.probe_
          (derived (EnvProbesHooks.capture_stage_ (run 11 (run 10 pl)))) = Some p' ∧
        p' ≠ 0%nat.
Proof.
  intros store pl run.
  destruct (updated_probe_waits_its_turn (fun _ => true)
              (fun e b => (e, b ++ [ProbeManager.index e]))
              (fun m => Z.of_nat (length (ProbeManager._probes m)))
              (fun _ => 1) (fun _ => 1) ProbeManager.insertion_sort
              10 11 false false pl 0%nat 1%nat)
    as (_ & Hfirst & p' & Hsecond & Hne & _).
  - intros lt l. apply insertion_sort_perm.
  - intros h l. apply insertion_sort_sorted.
  - done.
  - vm_compute. reflexivity.
  - simpl. right. left.
  - done.
  - vm_compute. discriminate.
  - vm_compute. reflexivity.
  - split; [exact Hfirst|]. split; [vm_compute; reflexivity|].
    exists p'. split; [exact Hsecond | exact Hne].
Defined.

Lemma capture_stage_active_iff_probe_visible_witness :
  let store : ProbeManager.ProbePtr → ProbeManager.EnvironmentProbe Z :=
    fun p => ProbeManager.mkProbe 0 (Z.of_nat p) (Z.of_nat p) in
  let pl : EnvProbesHooks.Plugin Z unit :=
    EnvProbesHooks.mkPlugin
      (ProbeManager.mkState
         (ProbeManager.mkManager [0; 1]%nat 4 128 4 None None None) store [])
      () 0
      (mkStage "EnvironmentCaptureStage" true ∅
         (EnvProbesHooks.mkCaptureMembers None))
      Samples.world0 2%nat [] [] in
  let run frustum :=
    EnvProbesHooks.on_pre_render_update (fun _ => false) (fun p b => (p, b))
      (fun m => Z.of_nat (length (ProbeManager._probes m))) frustum
      ProbeManager.insertion_sort true 7 false pl in
  active_ (EnvProbesHooks.capture_stage_ (run (fun _ => 0))) ≠ true ∧
  ProbeManager._probes
    (ProbeManager.manager (EnvProbesHooks.probe_mgr_ (run (fun _ => 0))))
    = [0; 1]%nat.
Proof.
  intros store pl run.
  destruct (capture_stage_active_iff_probe_visible (fun _ => false)
              (fun p b => (p, b))
              (fun m => Z.of_nat (length (ProbeManager._probes m)))
              (fun _ => 0) ProbeManager.insertion_sort 7 false pl)
    as (Hiff & Hsame & _).
  - intros lt l. apply insertion_sort_perm.
  - split; [|exact Hsame].
    intros Hact. apply Hiff in Hact as [p [_ Hv]]. by apply Hv.
Defined.

(** ** Loader: the flags of pre_load_model *)

Section LoaderFacts.

Lemma disjoint_bits (a b : Z) :
  Z.land a b = 0 → ∀ n, (0 ≤ n)%Z → Z.testbit a n && Z.testbit b n = false.
Proof. intros H n Hn. by rewrite <- Z.land_spec, H, Z.bits_0. Qed.

Lemma land_clear (f m : Z) : Z.land (Z.land f (Z.lnot m)) m = 0.
Proof.
  apply Z.bits_inj'. intros n Hn.
  rewrite !Z.land_spec, Z.lnot_spec, Z.bits_0 by done.
  by destruct (Z.testbit f n), (Z.testbit m n).
Qed.

Lemma land_set (f m : Z) : Z.land (Z.lor f m) m = m.
Proof.
  apply Z.bits_inj'. intros n Hn. rewrite Z.land_spec, Z.lor_spec.
  by destruct (Z.testbit f n), (Z.testbit m n).
Qed.

Lemma land_clear_other (f m r : Z) :
  Z.land m r = 0 → Z.land (Z.land f (Z.lnot m)) r = Z.land f r.
Proof.
  intros Hd. apply Z.bits_inj'. intros n Hn.
  pose proof (disjoint_bits m r Hd n Hn) as Hb.
  rewrite !Z.land_spec, Z.lnot_spec by done.
  by destruct (Z.testbit f n), (Z.testbit m n), (Z.testbit r n).
Qed.

Lemma land_set_other (f m r : Z) :
  Z.land m r = 0 → Z.land (Z.lor f m) r = Z.land f r.
Proof.
  intros Hd. apply Z.bits_inj'. intros n Hn.
  pose proof (disjoint_bits m r Hd n Hn) as Hb.
  rewrite !Z.land_spec, Z.lor_spec.
  by destruct (Z.testbit f n), (Z.testbit m n), (Z.testbit r n).
Qed.

End LoaderFacts.

(** X14.  When the three flag masks do not overlap, the
    [this_ok_missing] that [pre_load_model] reports agrees with the
    options it leaves: it is true exactly when no report-errors bit is
    set.  A given [ok_missing] is reported as it is. *)
Theorem pre_load_model_ok_missing_agrees
    (LF_report_errors LF_no_cache LF_allow_instance : Z)
    (flags : Z) (no_cache : option bool) (allow_instance : bool)
    (ok_missing : option bool) :
  LF_report_errors ≠ 0 →
  Z.land LF_no_cache LF_report_errors = 0 →
  Z.land LF_allow_instance LF_report_errors = 0 →
  let r := Loader.pre_load_model LF_report_errors LF_no_cache LF_allow_instance
             flags no_cache allow_instance ok_missing in
  (r.2 = true ↔ Z.land r.1 LF_report_errors = 0) ∧
  (∀ b, ok_missing = Some b → r.2 = b).
Proof.
  intros HR HC HI r. unfold r, Loader.pre_load_model.
  destruct ok_missing as [[]|], no_cache as [[]|], allow_instance; simpl;
    rewrite ?land_set_other by done; rewrite ?land_clear_other by done;
    rewrite ?land_set_other by done; rewrite ?land_clear, ?land_set;
    (split; [| intros b Hb; by inversion Hb]);
    first [ apply Z.eqb_eq | done | by split ].
Qed.

Lemma pre_load_model_ok_missing_agrees_witness :
  let r := Loader.pre_load_model 2 48 128 2 (Some false) true None in
  (r.2 = true ↔ Z.land r.1 2 = 0) ∧ r.1 = 178.
Proof.
  intros r.
  destruct (pre_load_model_ok_missing_agrees 2 48 128 2 (Some false) true None)
    as [Hiff _]; [done | done | done |].
  split; [exact Hiff | reflexivity].
Defined.

(** X15.  [pre_load_model] changes no bit outside the three masks.  A
    given [no_cache] decides the no-cache bits: [true] clears them (when
    the instance mask does not overlap them) and [false] sets them;
    [allow_instance] sets the instance bits. *)
Theorem pre_load_model_touches_only_masks
    (LF_report_errors LF_no_cache LF_allow_instance : Z)
    (flags : Z) (no_cache : option bool) (allow_instance : bool)
    (ok_missing : option bool) :
  let r := Loader.pre_load_model LF_report_errors LF_no_cache LF_allow_instance
             flags no_cache allow_instance ok_missing in
  (∀ n, (0 ≤ n)%Z →
        Z.testbit LF_report_errors n = false → Z.testbit LF_no_cache n = false →
        Z.testbit LF_allow_instance n = false →
        Z.testbit r.1 n = Z.testbit flags n) ∧
  (no_cache = Some true → Z.land LF_allow_instance LF_no_cache = 0 →
     Z.land r.1 LF_no_cache = 0) ∧
  (no_cache = Some false → Z.land r.1 LF_no_cache = LF_no_cache) ∧
  (allow_instance = true → Z.land r.1 LF_allow_instance = LF_allow_instance) ∧
  (no_cache = None → allow_instance = false → ok_missing = None → r.1 = flags).
Proof.
  intros r. unfold r, Loader.pre_load_model. repeat split.
  - intros n Hn HR HC HI.
    destruct ok_missing as [[]|], no_cache as [[]|], allow_instance; simpl;
      rewrite ?Z.lor_spec, ?Z.land_spec, ?Z.lnot_spec, ?Z.lor_spec, ?Z.land_spec,
        ?Z.lnot_spec by done;
      rewrite ?HR, ?HC, ?HI; simpl;
      rewrite ?orb_false_r, ?andb_true_r; done.
  - intros -> Hd. destruct ok_missing as [[]|], allow_instance; simpl;
      rewrite ?land_set_other by done; apply land_clear.
  - intros ->. destruct ok_missing as [[]|], allow_instance; simpl;
      try apply land_set;
      (apply Z.bits_inj'; intros n Hn;
       rewrite ?Z.land_spec, ?Z.lor_spec, ?Z.land_spec, ?Z.lor_spec,
         ?Z.land_spec, ?Z.lnot_spec by done;
       by destruct (Z.testbit LF_no_cache n), (Z.testbit LF_allow_instance n),
                   (Z.testbit flags n), (Z.testbit LF_report_errors n)).
  - intros ->. destruct ok_missing as [[]|], no_cache as [[]|]; simpl;
      apply land_set.
  - by intros -> -> ->.
Qed.

(** X16.  The two overloads of [load_model] agree: the list overload
    returns, for each path of the list and in the same order, what the
    single-path overload returns for that path. *)
Theorem load_models_agrees_with_load_model {Node : Type}
    (LF_report_errors LF_no_cache LF_allow_instance : Z)
    (load_sync : Filename → Z → option Node)
    (model_list : list Filename) (loader_options : Z) (no_cache : option bool)
    (allow_instance : bool) (ok_missing : option bool) :
  Loader.load_models LF_report_errors LF_no_cache LF_allow_instance load_sync
    model_list loader_options no_cache allow_instance ok_missing
  = map (fun model_path =>
           Loader.load_model LF_report_errors LF_no_cache LF_allow_instance
             load_sync model_path loader_options no_cache allow_instance ok_missing)
        model_list.
Proof.
  unfold Loader.load_models, Loader.load_model.
  by destruct (Loader.pre_load_model _ _ _ _ _ _ _).
Qed.

(** ** AssimpLoader::find_node *)

Section FindNodeFacts.
Import AssimpLoader.

Lemma aiNode_forall_ind (P : aiNode → Prop) :
  (∀ name children, Forall P children → P (mkNode name children)) →
  ∀ n, P n.
Proof.
  intros Hstep. fix IH 1. intros [name children]. apply Hstep.
  induction children as [|c rest IHrest]; constructor; [apply IH | exact IHrest].
Qed.

Lemma find_app_first {A : Type} (f : A → bool) (l k : list A) :
  List.find f (l ++ k) =
    match List.find f l with Some x => Some x | None => List.find f k end.
Proof.
  induction l as [|a l IH]; simpl; [done|]. by destruct (f a).
Qed.

Lemma find_node_preorder (name : string) (root : aiNode) :
  find_node root name
  = List.find (fun n => bool_decide (mName n = name)) (preorder root).
Proof.
  induction root as [root_name children IH] using aiNode_forall_ind.
  cbn [find_node preorder List.find mName].
  destruct (decide (root_name = name)) as [Heq | Hne].
  - by rewrite bool_decide_eq_true_2.
  - rewrite bool_decide_eq_false_2 by done.
    induction IH as [|c rest Hc _ IHrest]; [done|].
    rewrite find_app_first, <- Hc. destruct (find_node c name); [done|].
    exact IHrest.
Qed.

End FindNodeFacts.

(** X17.  [find_node] returns the first node, in depth-first order with
    a node before its children, whose name is the name looked for.  So
    a node it returns lies in the tree and carries that name, and it
    returns null exactly when no node of the tree carries it. *)
Theorem find_node_first_in_preorder
    (root : AssimpLoader.aiNode) (name : string) :
  AssimpLoader.find_node root name
    = List.find (fun n => bool_decide (AssimpLoader.mName n = name))
        (AssimpLoader.preorder root) ∧
  (∀ node, AssimpLoader.find_node root name = Some node →
     node ∈ AssimpLoader.preorder root ∧ AssimpLoader.mName node = name) ∧
  (AssimpLoader.find_node root name = None ↔
     ∀ node, node ∈ AssimpLoader.preorder root → AssimpLoader.mName node ≠ name).
Proof.
  rewrite find_node_preorder. split; [done|]. split.
  - intros node Hf. apply List.find_some in Hf as [Hin Hn].
    split; [by apply list_elem_of_In | by apply bool_decide_eq_true in Hn].
  - split.
    + intros Hnone node Hin Hn. apply list_elem_of_In in Hin.
      pose proof (List.find_none _ _ Hnone node Hin) as Hf. simpl in Hf.
      by apply bool_decide_eq_false in Hf.
    + intros Hall. destruct (List.find _ _) as [node|] eqn:Ef; [|done].
      apply List.find_some in Ef as [Hin Hn].
      apply bool_decide_eq_true in Hn. apply list_elem_of_In in Hin.
      by destruct (Hall node Hin).
Qed.

(** ** DisplayShaderBuilder *)

(** X18.  [generate_sampling_code] never falls back silently: when it
    returns the magenta fallback it has emitted a warning.  Integer
    component types are sampled through the integer sampler of the
    texture kind, whose name is that of the float sampler behind an i;
    the two float component types are sampled alike; cube maps are
    sampled alike whatever the component type. *)
Theorem generate_sampling_code_samplers
    (texture_type_string : TextureType → string)
    (component_type_string : DisplayShaderBuilder.ComponentType → string)
    (texture_type : TextureType) (comp_type : DisplayShaderBuilder.ComponentType) :
  let gen := DisplayShaderBuilder.generate_sampling_code
               texture_type_string component_type_string in
  let r := gen texture_type comp_type in
  (r.1 = DisplayShaderBuilder.fallback → r.2 ≠ []) ∧
  (DisplayShaderBuilder.IS_IN comp_type DisplayShaderBuilder.int_types = true →
   texture_type ∈ [TT_2d_texture; TT_buffer_texture; TT_3d_texture;
                   TT_2d_texture_array] →
   r.1.2 = "i" +:+ (gen texture_type DisplayShaderBuilder.T_float).1.2 ∧ r.2 = []) ∧
  (DisplayShaderBuilder.IS_IN comp_type DisplayShaderBuilder.float_types = true →
   r.1 = (gen texture_type DisplayShaderBuilder.T_float).1) ∧
  (texture_type ∈ [TT_cube_map; TT_cube_map_array] →
   r.1 = (gen texture_type DisplayShaderBuilder.T_float).1).
Proof.
  intros gen r. unfold r, gen. repeat split.
  - destruct texture_type, comp_type; vm_compute; intros Hf Hw; discriminate.
  - destruct comp_type; try (vm_compute in H; discriminate);
      destruct texture_type; try reflexivity;
      exfalso; revert H0; clear; intros H;
      repeat (apply elem_of_cons in H as [H | H]; [discriminate|]);
      by apply elem_of_nil in H.
  - destruct comp_type; try (vm_compute in H; discriminate);
      destruct texture_type; try reflexivity;
      exfalso; revert H0; clear; intros H;
      repeat (apply elem_of_cons in H as [H | H]; [discriminate|]);
      by apply elem_of_nil in H.
  - intros Hf. destruct comp_type; try (vm_compute in Hf; discriminate);
      destruct texture_type; reflexivity.
  - intros Hc. destruct texture_type; try reflexivity;
      exfalso; revert Hc; clear; intros H;
      repeat (apply elem_of_cons in H as [H | H]; [discriminate|]);
      by apply elem_of_nil in H.
Qed.

(** X19.  [build] regenerates the shader file only when the cache has no
    entry for its key: with an entry it writes nothing, reports nothing
    and leaves the world as it is.  Without an entry it reports the
    warnings of the generation and, when the file can be written, stores
    the generated fragment shader under the key and changes no other
    file and no call trace; when the write fails it logs the error and
    stores nothing.  The shader is always loaded from the default vertex
    shader, which lies under /$$rp/shader/, and the cache file, which
    lies under /$$rptemp/.  After a cache hit or a successful write, a
    second [build] with the same arguments finds the entry: it returns
    the same shader and changes nothing. *)
Theorem build_uses_cache
    (texture_type_string : TextureType → string)
    (component_type_string : DisplayShaderBuilder.ComponentType → string)
    (texture : Texture) (comp_type : DisplayShaderBuilder.ComponentType)
    (view_width view_height : Z) (w : World) :
  let key := DisplayShaderBuilder.cache_key texture_type_string
               component_type_string texture comp_type view_width view_height in
  let run := DisplayShaderBuilder.build texture_type_string
               component_type_string texture comp_type view_width view_height in
  let generated := DisplayShaderBuilder.build_fragment_shader texture_type_string
                     component_type_string (texture_type texture) comp_type
                     view_width view_height in
  let vertex := "/$$rp/shader/default_gui_shader.vert.glsl" in
  let shader := mkShader [vertex; key] in
  (is_Some (files w !! key) → run w = (shader, [], w)) ∧
  (files w !! key = None →
     (run w).1.2 = generated.2 ∧
     (write_failure w key = None →
        files (run w).2 !! key = Some generated.1 ∧
        (∀ other, other ≠ key → files (run w).2 !! other = files w !! other) ∧
        trace (run w).2 = trace w) ∧
     (∀ what, write_failure w key = Some what →
        files (run w).2 = files w ∧
        trace (run w).2
          = trace w ++ [CallError ("Error writing processed shader: " +:+ what)])) ∧
  (run w).1.1 = shader ∧
  under_dir "/$$rp/shader" vertex = true ∧ under_dir "/$$rptemp" key = true ∧
  (is_Some (files w !! key) ∨ write_failure w key = None →
     run (run w).2 = (shader, [], (run w).2)).
Proof.
  intros key run generated vertex shader.
  assert (Hhit : ∀ w0, is_Some (files w0 !! key) → run w0 = (shader, [], w0)).
  { intros w0 [t Ht]. unfold run, DisplayShaderBuilder.build. fold key.
    by rewrite Ht. }
  assert (Hmiss : files w !! key = None →
            run w = (shader, generated.2,
                     match write_failure w key with
                     | None => set_files (<[key := generated.1]> (files w)) w
                     | Some what =>
                         emit (CallError ("Error writing processed shader: "
                                          +:+ what)) w
                     end)).
  { intros Hn. unfold run, DisplayShaderBuilder.build. fold key.
    rewrite Hn. unfold generated.
    by destruct (DisplayShaderBuilder.build_fragment_shader _ _ _ _ _ _). }
  split; [apply Hhit|]. split; [|split; [|split; [|split]]].
  - intros Hn. rewrite (Hmiss Hn). cbn [fst snd]. split; [done|]. split.
    + intros ->. cbn [files set_files trace]. split; [apply lookup_insert_eq|].
      split; [|done]. intros other Hne. by apply lookup_insert_ne.
    + intros what ->. done.
  - destruct (files w !! key) as [t|] eqn:E.
    + by rewrite Hhit.
    + by rewrite Hmiss.
  - reflexivity.
  - apply under_dir_spec.
    exists ("$$TEXDISPLAY-X" +:+ pretty (x_size texture)
            +:+ "-Y" +:+ pretty (y_size texture)
            +:+ "-Z" +:+ pretty (z_size texture)
            +:+ "-TT" +:+ texture_type_string (texture_type texture)
            +:+ "-CT" +:+ component_type_string comp_type
            +:+ "-VW" +:+ pretty view_width
            +:+ "-VH" +:+ pretty view_height +:+ ".frag.glsl").
    reflexivity.
  - intros [Hsome | Hw].
    + rewrite (Hhit w Hsome). cbn [snd]. by apply Hhit.
    + destruct (files w !! key) as [t|] eqn:E.
      * rewrite (Hhit w) by (by rewrite E). cbn [snd]. apply Hhit. by rewrite E.
      * rewrite (Hmiss eq_refl), Hw. cbn [snd]. apply Hhit.
        cbn [files set_files]. rewrite lookup_insert_eq. by eexists.
Qed.

Lemma build_uses_cache_witness :
  let texture := mkTexture "ShadedScene" TT_2d_texture 1280 720 1 in
  let run := DisplayShaderBuilder.build (fun _ => "1") (fun _ => "2") texture
               DisplayShaderBuilder.T_float 256 144 in
  let w := Samples.world0 in
  run (run w).2 = ((run w).1.1, [], (run w).2) ∧ trace (run w).2 = [].
Proof.
  intros texture run w.
  destruct (build_uses_cache (fun _ => "1") (fun _ => "2") texture
              DisplayShaderBuilder.T_float 256 144 w)
    as (_ & Hmiss & Hshader & _ & _ & Hagain).
  split.
  - fold run in Hagain, Hshader. rewrite Hshader. apply Hagain. by right.
  - destruct Hmiss as (_ & Hwritten & _); [done|].
    destruct Hwritten as (_ & _ & Htrace); [done | exact Htrace].
Defined.

(** ** Runs of add_probe *)

(** X20.  A run of [add_probe] calls accepts exactly as many probes as
    there are free slots, in the order of the calls: with [free] the
    number of slots left at the start, the first [free] calls return
    true and their probes are appended in order, every later call
    returns false, stores nothing and logs one error. *)
Theorem add_probes_accepts_free_slots {B : Type}
    (ps : list ProbeManager.ProbePtr) (st : ProbeManager.State B) :
  let m := ProbeManager.manager st in
  let free := (ProbeManager._max_probes m
               - length (ProbeManager._probes m))%nat in
  let r := ProbeManager.add_probes ps st in
  r.1 = replicate (length ps `min` free) true
        ++ replicate (length ps - free) false ∧
  ProbeManager._probes (ProbeManager.manager r.2)
    = ProbeManager._probes m ++ take free ps ∧
  ProbeManager.errors r.2
    = ProbeManager.errors st
      ++ replicate (length ps - free) "Cannot attach probe, out of slots!".
Proof.
  cbv zeta. revert st.
  induction ps as [|p ps IH]; intros st.
  - cbn [ProbeManager.add_probes fst snd length]. rewrite take_nil, !app_nil_r.
    done.
  - cbn [ProbeManager.add_probes].
    destruct (ProbeManager.add_probe p st) as [r st1] eqn:E.
    specialize (IH st1).
    destruct (ProbeManager.add_probes ps st1) as [rs st2].
    cbn [fst snd length] in *.
    destruct IH as (IH1 & IH2 & IH3).
    destruct (Nat.le_gt_cases (ProbeManager._max_probes (ProbeManager.manager st))
                (length (ProbeManager._probes (ProbeManager.manager st))))
      as [Hfull | Hfree].
    + rewrite add_probe_full in E by done. injection E as <- <-.
      cbn [ProbeManager.manager ProbeManager.errors] in *.
      replace (ProbeManager._max_probes (ProbeManager.manager st)
               - length (ProbeManager._probes (ProbeManager.manager st)))%nat
        with 0%nat in * by lia.
      rewrite Nat.min_0_r, Nat.sub_0_r in *. rewrite take_0 in *.
      rewrite IH1, IH2, IH3. cbn [replicate app]. split; [done|].
      split; [done|]. by rewrite <- app_assoc.
    + destruct (add_probe_free p st Hfree) as (Hr & Hm & He & _).
      rewrite E in Hr, Hm, He. cbn [fst snd] in Hr, Hm, He. subst r.
      rewrite Hm, He in *. cbn [ProbeManager.with_probes ProbeManager._probes
        ProbeManager._max_probes] in *.
      rewrite length_app in *. cbn [length] in *.
      destruct (ProbeManager._max_probes (ProbeManager.manager st)
                - length (ProbeManager._probes (ProbeManager.manager st)))%nat
        as [|f] eqn:Ef; [lia|].
      replace (ProbeManager._max_probes (ProbeManager.manager st)
               - (length (ProbeManager._probes (ProbeManager.manager st)) + 1))%nat
        with f in * by lia.
      rewrite IH1, IH2, IH3. cbn [replicate app take Nat.min Nat.sub].
      split; [done|]. split; [|done]. by rewrite <- app_assoc.
Qed.
